(** * WaffleChart: aggregation, normalisation and grid layout

    A shallow embedding of the pure parts of
    [src/Clients/CustomVisuals/visuals/waffleChart/waffleChart.ts]:
    [WaffleChart.converter], [sanitizePathD], [sumValues], [getBestLayout],
    [calculateArea], [getWaffleSize], [initWaffles], the placing of the
    waffles in [WaffleChart.update], and the filling, the geometry of the
    dots and the place of the text in [SingleWaffleChart.update].

    Numbers.  A JavaScript [number] is modelled by an exact rational, or one
    of the three non-finite values.  Rounding of binary64 arithmetic
    (overflow, underflow, inexact results) is not modelled, and [-0] is not
    distinguished from [+0]; hence the sign of an infinity obtained by
    dividing by zero is the sign of the dividend.  No statement below
    depends on that sign. *)

From Stdlib Require Import ZArith QArith Qround Lia Lqa Bool Ascii String.
From stdpp Require Import base list.

Local Open Scope Z_scope.

(* ===================================================================== *)
(** ** JavaScript numbers and values                                      *)
(* ===================================================================== *)

Module JS.

Inductive number : Type :=
| Fin (q : Q)
| PosInf
| NegInf
| NaN.

Definition of_Z (z : Z) : number := Fin (inject_Z z).

Definition isFinite (x : number) : bool :=
  match x with Fin _ => true | _ => false end.

(** Sign of a number that is not [NaN]; zero is [Eq]. *)
Definition sgn (x : number) : comparison :=
  match x with
  | Fin q => (q ?= 0)%Q
  | PosInf => Gt
  | NegInf => Lt
  | NaN => Eq
  end.

Definition sgn_mul (a b : comparison) : comparison :=
  match a, b with
  | Eq, _ | _, Eq => Eq
  | Gt, Gt | Lt, Lt => Gt
  | _, _ => Lt
  end.

(** The infinity of a given sign; [Eq] stands for an undefined form. *)
Definition inf_of (s : comparison) : number :=
  match s with Gt => PosInf | Lt => NegInf | Eq => NaN end.

Definition neg (x : number) : number :=
  match x with
  | Fin q => Fin (- q)
  | PosInf => NegInf
  | NegInf => PosInf
  | NaN => NaN
  end.

Definition add (x y : number) : number :=
  match x, y with
  | NaN, _ | _, NaN => NaN
  | Fin a, Fin b => Fin (a + b)
  | PosInf, NegInf | NegInf, PosInf => NaN
  | PosInf, _ | _, PosInf => PosInf
  | NegInf, _ | _, NegInf => NegInf
  end.

Definition sub (x y : number) : number :=
  match x, y with
  | Fin a, Fin b => Fin (a - b)
  | _, _ => add x (neg y)
  end.

Definition mul (x y : number) : number :=
  match x, y with
  | NaN, _ | _, NaN => NaN
  | Fin a, Fin b => Fin (a * b)
  | _, _ => inf_of (sgn_mul (sgn x) (sgn y))
  end.

Definition div (x y : number) : number :=
  match x, y with
  | NaN, _ | _, NaN => NaN
  | Fin a, Fin b =>
      if Qeq_bool b 0 then inf_of (sgn x) else Fin (a / b)
  | Fin _, _ => Fin 0
  | _, Fin b => if Qeq_bool b 0 then x else inf_of (sgn_mul (sgn x) (sgn y))
  | _, _ => NaN
  end.

(** [x < y]; every comparison with [NaN] is false. *)
Definition ltb (x y : number) : bool :=
  match x, y with
  | NaN, _ | _, NaN => false
  | Fin a, Fin b => negb (Qle_bool b a)
  | NegInf, NegInf | PosInf, _ => false
  | NegInf, _ | _, PosInf => true
  | _, NegInf => false
  end.

Definition gtb (x y : number) : bool := ltb y x.

(** [x <= y]. *)
Definition leb (x y : number) : bool :=
  match x, y with
  | NaN, _ | _, NaN => false
  | Fin a, Fin b => Qle_bool a b
  | NegInf, _ | _, PosInf => true
  | _, _ => false
  end.

(** [Math.round]: the nearest integer, ties towards [+Infinity]. *)
Definition Math_round (x : number) : number :=
  match x with
  | Fin q => of_Z (Qfloor (q + (1 # 2)))
  | _ => x
  end.

Definition max2 (a b : number) : number :=
  match a, b with
  | NaN, _ | _, NaN => NaN
  | _, _ => if ltb a b then b else a
  end.

(** [Math.max.apply(null, l)] on numbers: [-Infinity] for no argument,
    [NaN] as soon as one argument is [NaN]. *)
Definition Math_max (l : list number) : number :=
  fold_left max2 l NegInf.

(** A JavaScript value of an expected type [T], [null] or [undefined]. *)
Inductive value (T : Type) : Type :=
| Val (t : T)
| Null
| Undefined.
Arguments Val {T} t.
Arguments Null {T}.
Arguments Undefined {T}.

(** [ToNumber]. *)
Definition ToNumber (v : value number) : number :=
  match v with
  | Val n => n
  | Null => Fin 0
  | Undefined => NaN
  end.

(** [ToBoolean] of a number-or-missing value: [0], [NaN], [null] and
    [undefined] are falsy. *)
Definition truthy (v : value number) : bool :=
  match v with
  | Val (Fin q) => negb (Qeq_bool q 0)
  | Val NaN => false
  | Val _ => true
  | _ => false
  end.

(** Arrays, possibly with holes: reading past the end or in a hole
    gives [undefined], writing past the end extends the array. *)
Abbreviation array T := (list (value T)).

Definition get {T} (a : array T) (i : nat) : value T :=
  default Undefined (a !! i).

Definition set {T} (a : array T) (i : nat) (v : value T) : array T :=
  if (i <? length a)%nat then <[i := v]> a
  else a ++ replicate (i - length a) Undefined ++ [v].

(** [for (var i = lo; i <= hi; i++) s = body i s] *)
Fixpoint iterate {S : Type} (n : nat) (i : Z) (body : Z -> S -> S) (s : S) : S :=
  match n with
  | O => s
  | Datatypes.S n' => iterate n' (i + 1) body (body i s)
  end.

Definition for_upto {S : Type} (lo hi : Z) (body : Z -> S -> S) (s : S) : S :=
  iterate (Z.to_nat (hi + 1 - lo)) lo body s.

(** [x >= y]. *)
Definition geb (x y : number) : bool := leb y x.

(** [Math.floor]. *)
Definition Math_floor (x : number) : number :=
  match x with
  | Fin q => of_Z (Qfloor q)
  | _ => x
  end.

(** The integer part, towards zero. *)
Definition Qtrunc (q : Q) : Z :=
  if Qle_bool 0 q then Qfloor q else Qceiling q.

(** [x % y]: the remainder of the division truncated towards zero. *)
Definition rem (x y : number) : number :=
  match x, y with
  | Fin a, Fin b =>
      if Qeq_bool b 0 then NaN else Fin (a - b * inject_Z (Qtrunc (a / b)))
  | Fin a, (PosInf | NegInf) => Fin a
  | _, _ => NaN
  end.

(** [Math.min(a, b)]. *)
Definition Math_min (a b : number) : number :=
  match a, b with
  | NaN, _ | _, NaN => NaN
  | _, _ => if ltb b a then b else a
  end.

End JS.

Import JS.

Declare Scope js_scope.
Delimit Scope js_scope with js.
Bind Scope js_scope with number.
Infix "+" := JS.add : js_scope.
Infix "-" := JS.sub : js_scope.
Infix "*" := JS.mul : js_scope.
Infix "/" := JS.div : js_scope.
Infix "<=?" := JS.leb : js_scope.
Infix ">?" := JS.gtb : js_scope.
Infix ">=?" := JS.geb : js_scope.
Infix "mod" := JS.rem : js_scope.
Coercion JS.of_Z : Z >-> JS.number.

(* ===================================================================== *)
(** ** Layout optimiser                                                   *)
(* ===================================================================== *)

Record IViewport : Type := { width : number; height : number }.

Record WaffleChartLayout : Type :=
  { rows : Z; columns : Z; totalArea : number }.

Definition getWaffleSize (viewport : IViewport) : IViewport :=
  if (width viewport * 800 / 600 <=? height viewport)%js then
    {| width := width viewport;
       height := (width viewport * 800 / 600)%js |}
  else
    {| width := (height viewport * 600 / 800)%js;
       height := height viewport |}.

Definition calculateArea (viewport : IViewport) (count rows columns : Z)
  : WaffleChartLayout :=
  let waffleViewport :=
    getWaffleSize {| width := (width viewport / columns)%js;
                     height := (height viewport / rows)%js |} in
  let totalArea := (width waffleViewport * height waffleViewport * count)%js in
  {| rows := rows; columns := columns; totalArea := totalArea |}.

Definition initialLayout : WaffleChartLayout :=
  {| rows := 0; columns := 0; totalArea := 0 |}.

(** The body of the inner loop of [getBestLayout]. *)
Definition considerLayout (viewport : IViewport) (count i j : Z)
    (bestLayout : WaffleChartLayout) : WaffleChartLayout :=
  if i * j >=? count then
    let currentArea := calculateArea viewport count i j in
    if (totalArea currentArea >? totalArea bestLayout)%js then currentArea
    else bestLayout
  else bestLayout.

Definition getBestLayout (viewport : IViewport) (count : Z) : WaffleChartLayout :=
  for_upto 1 count (fun i bestLayout =>
    for_upto 1 count (fun j bestLayout =>
      considerLayout viewport count i j bestLayout) bestLayout)
  initialLayout.

(* ===================================================================== *)
(** ** Path labels                                                        *)
(* ===================================================================== *)

(** The character class of the regular expression
    [/[bdfgijknopruwxy]+/gi]. *)
Definition pathClass : string := "bdfgijknopruwxy".

(** Case folding done by the [i] flag, on ASCII letters. *)
Definition canonicalize (c : ascii) : ascii :=
  let n := nat_of_ascii c in
  if ((97 <=? n) && (n <=? 122))%nat then ascii_of_nat (n - 32) else c.

Definition inClass (c : ascii) : bool :=
  existsb (fun d => Ascii.eqb (canonicalize d) (canonicalize c))
          (list_ascii_of_string pathClass).

(** [[...]+] matched at the start of [s]: the rest of [s] after the longest
    non-empty run of class characters, if there is one. *)
Fixpoint skipClass (s : string) : string :=
  match s with
  | String c s' => if inClass c then skipClass s' else s
  | EmptyString => s
  end.

Definition matchClassPlus (s : string) : option string :=
  match s with
  | String c s' => if inClass c then Some (skipClass s') else None
  | EmptyString => None
  end.

(** [regex.test(s)] on a fresh regular expression ([lastIndex = 0]): is
    there a position of [s] at which the pattern matches? *)
Fixpoint regex_test (s : string) : bool :=
  match matchClassPlus s with
  | Some _ => true
  | None => match s with
            | String _ s' => regex_test s'
            | EmptyString => false
            end
  end.

Definition sanitizePathD (pathD : string) : value string :=
  if regex_test pathD then Null else Val pathD.

(** The characters the claim lists, in both cases. *)
Definition disallowedGlyphs : list ascii :=
  list_ascii_of_string "bdfgijknopruwxyBDFGIJKNOPRUWXY".

Definition containsDisallowed (label : string) : Prop :=
  exists c, In c (list_ascii_of_string label) /\ In c disallowedGlyphs.

(** The characters of SVG path data: the command letters in both cases,
    digits, the exponent letter, signs, the decimal point and separators. *)
Definition pathDataGlyphs : list ascii :=
  list_ascii_of_string "MmLlHhVvCcSsQqTtAaZzEe0123456789+-., ".

(* ===================================================================== *)
(** ** Aggregation                                                        *)
(* ===================================================================== *)

(** [for (var i = 0; i < n; i++) s = body i s] *)
Definition for_below {S : Type} (n : nat) (body : nat -> S -> S) (s : S) : S :=
  fold_left (fun s i => body i s) (seq 0 n) s.

Definition sumValues (totals localValues : array number) (paths : array string)
    (currentPath : value string) : array number * array string :=
  for_below (length localValues) (fun i '(totals, paths) =>
    if truthy (get localValues i) then
      let paths := set paths i currentPath in
      let totals :=
        set totals i (Val (ToNumber (get totals i) + ToNumber (get localValues i))%js) in
      (totals, paths)
    else (totals, paths))
  (totals, paths).

(** [waffleChartRoleNames] *)
Inductive RoleName : Type := Category | Values | MinValue | MaxValue | Paths.

Definition RoleName_eqb (a b : RoleName) : bool :=
  match a, b with
  | Category, Category | Values, Values | MinValue, MinValue
  | MaxValue, MaxValue | Paths, Paths => true
  | _, _ => false
  end.

(** Modelled from the spec: [DataViewMetadataColumn] and
    [DataRoleHelper.hasRole] are declared outside this file; a column's
    source is tagged with the roles it plays, and [hasRole] tests one. *)
Record DataViewMetadataColumn : Type := { roles : list RoleName }.

Definition hasRole (source : DataViewMetadataColumn) (r : RoleName) : bool :=
  existsb (RoleName_eqb r) (roles source).

Record DataViewValueColumn : Type :=
  { source : DataViewMetadataColumn; col_values : array number }.

(** Modelled from the spec: [DataViewValueColumns.grouped()] is declared
    outside this file; it gives the series groups, each with a name. *)
Record DataViewValueColumnGroup : Type := { name : string }.

Record DataViewValueColumns : Type :=
  { valueColumns : list DataViewValueColumn;
    grouped : list DataViewValueColumnGroup }.

Section Converter.

(** Category identities and style objects are opaque to the converter;
    [format] stands for [valueFormatter.create({format: 'O', ...}).format]. *)
Context {Identity Objects : Type}.
Variable format : value string -> value string.

Record DataViewCategoryColumn : Type :=
  { cat_values : array string;
    cat_identity : list Identity;
    cat_objects : option (list Objects);
    cat_dateTime : bool }.

(** [dataView.categorical.categories], [dataView.categorical.values] and
    whether [dataView.metadata.columns] is there. *)
Record DataView : Type :=
  { categories : option (list DataViewCategoryColumn);
    values : option DataViewValueColumns;
    metadata_columns : bool }.

Record WaffleChartViewModel : Type :=
  { count : option nat;
    labelsArray : option (array string);
    identities : option (list Identity);
    objects : value (list Objects);
    vm_values : array number;
    paths : option (array string) }.

(** The variables assigned by the loop over the value columns. *)
Record Series : Type :=
  { totals : option (array number);
    s_paths : option (array string);
    minValues : option (array number);
    maxValues : option (array number);
    currentPathIndex : nat }.

Definition noSeries : Series :=
  {| totals := None; s_paths := None; minValues := None; maxValues := None;
     currentPathIndex := 0 |}.

(** One turn of the loop over [categoricalValues]. *)
Definition readColumn (pathsGroups : array string) (column : DataViewValueColumn)
    (s : Series) : Series :=
  let localValues := col_values column in
  if hasRole (source column) Values then
    let '(totals0, paths0) :=
      match totals s with
      | None => (replicate (length localValues) (Val (0 : number)),
                 replicate (length localValues) Undefined)
      | Some t => (t, default [] (s_paths s))
      end in
    let '(totals1, paths1) :=
      sumValues totals0 localValues paths0 (get pathsGroups (currentPathIndex s)) in
    {| totals := Some totals1; s_paths := Some paths1;
       minValues := minValues s; maxValues := maxValues s;
       currentPathIndex := S (currentPathIndex s) |}
  else if hasRole (source column) MinValue then
    {| totals := totals s; s_paths := s_paths s;
       minValues := Some localValues; maxValues := maxValues s;
       currentPathIndex := currentPathIndex s |}
  else if hasRole (source column) MaxValue then
    {| totals := totals s; s_paths := s_paths s;
       minValues := minValues s; maxValues := Some localValues;
       currentPathIndex := currentPathIndex s |}
  else s.

Definition readSeries (dataView : DataView) : Series :=
  match values dataView, metadata_columns dataView with
  | Some categoricalValues, true =>
      let pathsGroups :=
        map (fun g => sanitizePathD (name g)) (grouped categoricalValues) in
      fold_left (fun s column => readColumn pathsGroups column s)
                (valueColumns categoricalValues) noSeries
  | _, _ => noSeries
  end.

Definition getCount (labelsArray : option (array string))
    (totals : option (array number)) : option nat :=
  match labelsArray, totals with
  | Some l, Some t => Some (Nat.max (length l) (length t))
  | Some l, None => Some (length l)
  | None, Some t => Some (length t)
  | None, None => None
  end.

(** The normalisation step of [converter]. *)
Definition normalize (totals : array number)
    (minValues maxValues : option (array number)) : array number :=
  let maxValue := Math_max (map ToNumber totals) in
  match maxValues with
  | Some maxValues =>
      for_below (length totals) (fun i totals =>
        let localMaxValue := get maxValues i in
        let localMinValue :=
          match minValues with
          | Some minValues =>
              if truthy (get minValues i) then get minValues i else Val (0 : number)
          | None => Val (0 : number)
          end in
        let range := (ToNumber localMaxValue - ToNumber localMinValue)%js in
        set totals i
          (Val (Math_round
             ((ToNumber (get totals i) - ToNumber localMinValue) * 100 / range)%js)))
        totals
  | None =>
      if (maxValue >? 100)%js then
        for_below (length totals) (fun i totals =>
          set totals i
            (Val (Math_round (ToNumber (get totals i) * 100 / maxValue)%js)))
          totals
      else totals
  end.

Definition converter (dataView : DataView) : WaffleChartViewModel :=
  let category0 :=
    match categories dataView with
    | Some (category0 :: _) => Some category0
    | _ => None
    end in
  let labelsArray := option_map cat_values category0 in
  let identities := option_map cat_identity category0 in
  let objects :=
    match category0 with
    | Some c => match cat_objects c with Some o => Val o | None => Null end
    | None => Undefined
    end in
  let labelsArray :=
    match category0 with
    | Some c => if cat_dateTime c then option_map (map format) labelsArray
                else labelsArray
    | None => labelsArray
    end in
  let s := readSeries dataView in
  let count := getCount labelsArray (totals s) in
  let totals :=
    match totals s with
    | Some t => t
    | None => for_below (default 0%nat count) (fun _ totals =>
                totals ++ [Val (0 : number)]) []
    end in
  let totals := normalize totals (minValues s) (maxValues s) in
  {| labelsArray := labelsArray;
     identities := identities;
     objects := objects;
     vm_values := totals;
     paths := s_paths s;
     count := count |}.

(** [initWaffles]: the [path] option given to each new waffle. *)
Definition initWaffles (newCount : option nat) (paths : option (array string))
  : list (value string) :=
  for_below (default 0%nat newCount) (fun i singleWaffleChartArray =>
    singleWaffleChartArray ++
      [match paths with Some p => get p i | None => Null end]) [].

End Converter.

(** Totals and paths are created together and stay of one length. *)
Definition aligned (s : Series) : Prop :=
  match totals s, s_paths s with
  | Some t, Some p => length t = length p
  | None, None => True
  | _, _ => False
  end.

(** Categories ["A", "B", "C"] and one series of role "Values", in one
    unnamed group; no bounds. *)
Definition abcSeries (series : list Z) : @DataView nat unit :=
  {| categories :=
       Some [{| cat_values := [Val "A"%string; Val "B"%string; Val "C"%string];
                cat_identity := [0%nat; 1%nat; 2%nat];
                cat_objects := None;
                cat_dateTime := false |}];
     values :=
       Some {| valueColumns :=
                 [{| source := {| roles := [Values] |};
                     col_values := map (fun z : Z => Val (z : number)) series |}];
               grouped := [{| name := ""%string |}] |};
     metadata_columns := true |}.

(* ===================================================================== *)
(** ** Glyph filling                                                      *)
(* ===================================================================== *)

(** [for (var i = hi; i >= 0; i--) s = body i s] *)
Definition for_downfrom {St : Type} (hi : nat) (body : nat -> St -> St) (s : St) : St :=
  fold_left (fun s i => body i s) (rev (seq 0 (S hi))) s.

(** The fill given to each of the 10 x 10 dots: [Some true] for the
    accent colour [options.color], [Some false] for ['LightBlue'], [None]
    for a dot that was not styled. *)
Abbreviation dots := (list (list (option bool))).

Definition noDots : dots := replicate 10 (replicate 10 None).

(** The loop of [SingleWaffleChart.update] that styles the dots. *)
Definition fillDots (percentage : number) : dots :=
  snd (for_downfrom 9 (fun i st =>
         for_below 10 (fun j '(percentage, dotArray) =>
           let fill := (percentage >? 0)%js in
           ((percentage - 1)%js, alter (<[j := Some fill]>) i dotArray)) st)
       (percentage, noDots)).

(** The counter when the dot of row [i] and column [j] is visited: rows
    from 9 down to 0, columns from 0 up to 9. *)
Definition visitRank (i j : nat) : nat := (9 - i) * 10 + j.

Definition decrement (percentage : number) : number := (percentage - 1)%js.

(** How many dots have the accent colour. *)
Definition countFilled (dotArray : dots) : nat :=
  length (filter (fun fill => fill = Some true) (concat dotArray)).

(* ===================================================================== *)
(** ** Placing and drawing the waffles                                    *)
(* ===================================================================== *)

Section Update.

Context {Identity Objects : Type}.

(** The options [WaffleChart.update] gives to a waffle.  [fontFamily] is
    a constant and [color] comes from [ColorHelper], which is not in this
    file; both are left out. *)
Record SingleWaffleChartUpdateOptions : Type :=
  { opt_x : number;
    opt_y : number;
    opt_width : number;
    opt_height : number;
    opt_value : number;
    opt_text : string;
    opt_identity : value Identity }.

(** The part of [WaffleChart.update] after the view model is made: the
    best layout, the size of a waffle, and the options of each waffle.
    An undefined count makes every loop test false, as the count 0 does. *)
Definition updateOptions (viewport : IViewport)
    (viewModel : @WaffleChartViewModel Identity Objects)
  : list SingleWaffleChartUpdateOptions :=
  let count := default 0%nat (count viewModel) in
  let bestLayout := getBestLayout viewport (Z.of_nat count) in
  let waffleViewport :=
    getWaffleSize {| width := (width viewport / columns bestLayout)%js;
                     height := (height viewport / rows bestLayout)%js |} in
  let globalX :=
    (width viewport / 2 - width waffleViewport * columns bestLayout / 2)%js in
  let globalY :=
    (height viewport / 2 - height waffleViewport * rows bestLayout / 2)%js in
  for_below count (fun i singleWaffleChartArray =>
    let localX :=
      (globalX + width waffleViewport * (Z.of_nat i mod columns bestLayout))%js in
    let localY :=
      (globalY + height waffleViewport
                 * Math_floor (Z.of_nat i / columns bestLayout))%js in
    singleWaffleChartArray ++
      [{| opt_x := localX;
          opt_y := localY;
          opt_width := width waffleViewport;
          opt_height := height waffleViewport;
          opt_value :=
            if truthy (get (vm_values viewModel) i)
            then ToNumber (get (vm_values viewModel) i) else 0;
          opt_text :=
            match labelsArray viewModel with
            | Some labelsArray =>
                match get labelsArray i with
                | Val (String c s) => String c s
                | _ => "(Blank)"
                end
            | None => "(Blank)"
            end;
          opt_identity :=
            match identities viewModel with
            | Some identities =>
                match identities !! i with
                | Some id_i => Val id_i
                | None => Null
                end
            | None => Null
            end |}]) [].

End Update.

(** The bounding box of the first dot, [dotRect], as far as it is read. *)
Record SVGRect : Type := { rect_width : number; rect_height : number }.

(** The attributes [SingleWaffleChart.update] sets on a dot: [r], [cy]
    and [cx] of a circle, or the [translate(x y) scale(s)] of a path. *)
Inductive DotAttr : Type :=
| CircleAttr (r cy cx : number)
| TransformAttr (translateX translateY scale : number).

Definition dotGMargin : Z := 20.

Definition padding : Z := 3.

Definition chartSide (options_width options_height : number) : number :=
  let dotGHeight := Math_min options_height options_width in
  if (dotGHeight >=? dotGMargin * 2)%js then (dotGHeight - dotGMargin * 2)%js
  else 0.

Definition dataPointSide (options_width options_height : number) : number :=
  (chartSide options_width options_height / 10)%js.

(** [scaleValue], when the data point is a path. *)
Definition scaleValue (dotRect : SVGRect) (options_width options_height : number)
  : number :=
  let dataPointSide := dataPointSide options_width options_height in
  if (dataPointSide >=? padding)%js then
    ((dataPointSide - padding) / max2 (rect_height dotRect) (rect_width dotRect))%js
  else 0.

(** The attributes of the dot of row [i] and column [j]. *)
Definition dotAttr (dotRect : option SVGRect) (options_width options_height : number)
    (i j : nat) : DotAttr :=
  let dataPointSide := dataPointSide options_width options_height in
  match dotRect with
  | Some rect =>
      if (rect_height rect >? 0)%js && (rect_width rect >? 0)%js then
        TransformAttr (dataPointSide * Z.of_nat j)%js (dataPointSide * Z.of_nat i)%js
                      (scaleValue rect options_width options_height)
      else
        let radio := (dataPointSide / 2)%js in
        CircleAttr radio (radio + dataPointSide * Z.of_nat i)%js
                         (radio + dataPointSide * Z.of_nat j)%js
  | None =>
      let radio := (dataPointSide / 2)%js in
      CircleAttr radio (radio + dataPointSide * Z.of_nat i)%js
                       (radio + dataPointSide * Z.of_nat j)%js
  end.

(** Where [SingleWaffleChart.update] puts the two lines of text. *)
Record TextLayout : Type :=
  { textGY : number;
    textGHeight : number;
    fontSize : number;
    percentageTextY : number;
    descTextY : number }.

Definition textLayout (options_width options_height : number) : TextLayout :=
  let textGY := Math_min options_height options_width in
  let textGHeight := (max2 options_height options_width - textGY)%js in
  let percentageTextMargin := (textGHeight / 2 / 6)%js in
  let fontSize := (textGHeight / 2 - percentageTextMargin * 2)%js in
  let percentageTextY := (fontSize / 2 + percentageTextMargin)%js in
  let descTextY := (textGHeight / 2 + fontSize / 2 + percentageTextMargin)%js in
  {| textGY := textGY; textGHeight := textGHeight; fontSize := fontSize;
     percentageTextY := percentageTextY; descTextY := descTextY |}.

(* ===================================================================== *)
(** ** Reading the series, column by column                               *)
(* ===================================================================== *)

(** The role a value column is read for: the first that matches, in the
    order of the tests of [converter]. *)
Definition readAs (column : DataViewValueColumn) : option RoleName :=
  if hasRole (source column) Values then Some Values
  else if hasRole (source column) MinValue then Some MinValue
  else if hasRole (source column) MaxValue then Some MaxValue
  else None.

(** The total of category [i] after one more column. *)
Definition addValue (i : nat) (total : value number) (localValues : array number)
  : value number :=
  if truthy (get localValues i)
  then Val (ToNumber total + ToNumber (get localValues i))%js
  else total.

(** The total of category [i] over columns summed in order, from 0. *)
Definition totalOf (valueColumns : list (array number)) (i : nat) : value number :=
  fold_left (addValue i) valueColumns (Val (0 : number)).

(** The path of category [i] after the columns [valueColumns], the first
    of which belongs to the group [currentPathIndex]: the path of the last
    column with a truthy value for the category. *)
Fixpoint pathOf (pathsGroups : array string) (currentPathIndex : nat)
    (valueColumns : list (array number)) (i : nat) (path : value string)
  : value string :=
  match valueColumns with
  | [] => path
  | localValues :: valueColumns =>
      pathOf pathsGroups (S currentPathIndex) valueColumns i
        (if truthy (get localValues i) then get pathsGroups currentPathIndex else path)
  end.

Definition readAsRole (role : RoleName) (column : DataViewValueColumn) : bool :=
  match readAs column with
  | Some r => RoleName_eqb role r
  | None => false
  end.

(* ===================================================================== *)
(** ** Loops                                                              *)
(* ===================================================================== *)

Section LoopRules.
Context {St : Type}.
Implicit Types (body : Z -> St -> St) (P : St -> Prop).

Lemma iterate_invariant P body n lo s :
  P s ->
  (forall k s, lo <= k < lo + Z.of_nat n -> P s -> P (body k s)) ->
  P (iterate n lo body s).
Proof.
  revert lo s. induction n as [|n IH]; intros lo s Hs Hbody; [exact Hs|].
  cbn [iterate]. apply IH.
  - apply Hbody; [lia | exact Hs].
  - intros k s' Hk. apply Hbody. lia.
Qed.

Lemma for_upto_invariant P body lo hi s :
  P s ->
  (forall k s, lo <= k <= hi -> P s -> P (body k s)) ->
  P (for_upto lo hi body s).
Proof.
  intros Hs Hbody. unfold for_upto. apply iterate_invariant; [exact Hs|].
  intros k s' Hk. apply Hbody. lia.
Qed.

Lemma iterate_snoc body n lo s :
  iterate (S n) lo body s = body (lo + Z.of_nat n) (iterate n lo body s).
Proof.
  revert lo s. induction n as [|n IH]; intros lo s.
  - cbn. now rewrite Z.add_0_r.
  - change (iterate (S (S n)) lo body s)
      with (iterate (S n) (lo + 1) body (body lo s)).
    rewrite IH. cbn [iterate]. f_equal. lia.
Qed.

Lemma for_upto_first body lo hi s :
  lo <= hi -> for_upto lo hi body s = for_upto (lo + 1) hi body (body lo s).
Proof.
  intros Hle. unfold for_upto.
  replace (Z.to_nat (hi + 1 - lo)) with (S (Z.to_nat (hi + 1 - (lo + 1)))) by lia.
  reflexivity.
Qed.

Lemma for_upto_last body lo hi s :
  lo <= hi -> for_upto lo hi body s = body hi (for_upto lo (hi - 1) body s).
Proof.
  intros Hle. unfold for_upto.
  replace (Z.to_nat (hi + 1 - lo)) with (S (Z.to_nat (hi - 1 + 1 - lo))) by lia.
  rewrite iterate_snoc. f_equal. lia.
Qed.
End LoopRules.

(* ===================================================================== *)
(** ** Tiles                                                              *)
(* ===================================================================== *)

Local Open Scope Q_scope.

(** [lra] with the divisions by the constants of the program made
    multiplications. *)
Ltac qlra :=
  unfold Qdiv in *;
  change (/ 600) with (1 # 600) in *;
  change (/ 800) with (1 # 800) in *;
  change (/ 100) with (1 # 100) in *;
  lra.

Lemma Qle_bool_false (a b : Q) : Qle_bool a b = false <-> b < a.
Proof.
  rewrite <- not_true_iff_false, Qle_bool_iff. split; intros H.
  - now apply Qnot_le_lt.
  - now apply Qlt_not_le.
Qed.

Lemma div_Fin (a b : Q) : ~ b == 0 -> (Fin a / Fin b)%js = Fin (a / b).
Proof.
  intros Hb. cbn. destruct (Qeq_bool b 0) eqn:E; [|reflexivity].
  now apply Qeq_bool_iff in E.
Qed.

Lemma div_Fin_Z (a : Q) (z : Z) : z <> 0%Z -> (Fin a / z)%js = Fin (a / inject_Z z).
Proof.
  intros Hz. apply div_Fin. unfold Qeq, inject_Z. cbn. lia.
Qed.

Lemma mul_Fin_Z (a : Q) (z : Z) : (Fin a * z)%js = Fin (a * inject_Z z).
Proof. reflexivity. Qed.

(** The tile of a finite cell, case by case. *)
Lemma getWaffleSize_Fin (w h : Q) :
  (w * 800 / 600 <= h /\
   getWaffleSize {| width := Fin w; height := Fin h |}
   = {| width := Fin w; height := Fin (w * 800 / 600) |})
  \/
  (h < w * 800 / 600 /\
   getWaffleSize {| width := Fin w; height := Fin h |}
   = {| width := Fin (h * 600 / 800); height := Fin h |}).
Proof.
  unfold getWaffleSize. cbn [width height].
  rewrite !mul_Fin_Z, !div_Fin_Z by discriminate.
  change (inject_Z 800) with 800. change (inject_Z 600) with 600. cbn [leb].
  destruct (Qle_bool (w * 800 / 600) h) eqn:E.
  - left. split; [now apply Qle_bool_iff | reflexivity].
  - right. split; [now apply Qle_bool_false | reflexivity].
Qed.


Lemma inject_Z_pos (z : Z) : (0 < z)%Z -> 0 < inject_Z z.
Proof. intros Hz. unfold Qlt, inject_Z. cbn. lia. Qed.

Lemma Qdiv_pos (a b : Q) : 0 < a -> 0 < b -> 0 < a / b.
Proof. intros Ha Hb. apply Qlt_shift_div_l; [exact Hb | lra]. Qed.

Lemma Qdiv_nonneg (a b : Q) : 0 <= a -> 0 < b -> 0 <= a / b.
Proof. intros Ha Hb. apply Qle_shift_div_l; [exact Hb | lra]. Qed.

Lemma Qdiv_zero (a b : Q) : a == 0 -> a / b == 0.
Proof. intros Ha. unfold Qdiv. rewrite Ha. ring. Qed.

(** The value computed by [calculateArea] on a finite viewport. *)
Lemma calculateArea_Fin (w h : Q) (count i j : Z) :
  i <> 0%Z -> j <> 0%Z ->
  exists tw th : Q,
    getWaffleSize {| width := Fin (w / inject_Z j); height := Fin (h / inject_Z i) |}
    = {| width := Fin tw; height := Fin th |} /\
    calculateArea {| width := Fin w; height := Fin h |} count i j
    = {| rows := i; columns := j; totalArea := Fin (tw * th * inject_Z count) |}.
Proof.
  intros Hi Hj. unfold calculateArea. cbn [width height].
  rewrite !div_Fin_Z by assumption.
  destruct (getWaffleSize_Fin (w / inject_Z j) (h / inject_Z i)) as [[_ E] | [_ E]];
    rewrite E; eexists _, _; (split; [reflexivity|]); reflexivity.
Qed.

Lemma calculateArea_positive (w h : Q) (count i j : Z) :
  0 < w -> 0 < h -> (0 < count)%Z -> (0 < i)%Z -> (0 < j)%Z ->
  exists a : Q,
    calculateArea {| width := Fin w; height := Fin h |} count i j
    = {| rows := i; columns := j; totalArea := Fin a |} /\ 0 < a.
Proof.
  intros Hw Hh Hc Hi Hj.
  destruct (calculateArea_Fin w h count i j) as (tw & th & Ht & ->); [lia | lia |].
  eexists; split; [reflexivity|].
  pose proof (Qdiv_pos w (inject_Z j) Hw (inject_Z_pos j Hj)) as Hcw.
  pose proof (Qdiv_pos h (inject_Z i) Hh (inject_Z_pos i Hi)) as Hch.
  pose proof (inject_Z_pos count Hc) as Hcount.
  assert (0 < tw /\ 0 < th) as [Htw Hth].
  { destruct (getWaffleSize_Fin (w / inject_Z j) (h / inject_Z i)) as [[_ E] | [_ E]];
      rewrite E in Ht; injection Ht as <- <-; split; qlra. }
  apply Qmult_lt_0_compat; [apply Qmult_lt_0_compat|]; assumption.
Qed.

Lemma calculateArea_zero (w h : Q) (count i j : Z) :
  0 <= w -> 0 <= h -> w == 0 \/ h == 0 -> (0 < i)%Z -> (0 < j)%Z ->
  exists a : Q,
    calculateArea {| width := Fin w; height := Fin h |} count i j
    = {| rows := i; columns := j; totalArea := Fin a |} /\ a == 0.
Proof.
  intros Hw Hh Hz Hi Hj.
  destruct (calculateArea_Fin w h count i j) as (tw & th & Ht & ->); [lia | lia |].
  eexists; split; [reflexivity|].
  pose proof (Qdiv_nonneg w (inject_Z j) Hw (inject_Z_pos j Hj)) as Hcw.
  pose proof (Qdiv_nonneg h (inject_Z i) Hh (inject_Z_pos i Hi)) as Hch.
  assert (tw == 0 \/ th == 0) as Hzero.
  { destruct Hz as [Hz | Hz].
    - pose proof (Qdiv_zero w (inject_Z j) Hz) as Hcz.
      destruct (getWaffleSize_Fin (w / inject_Z j) (h / inject_Z i)) as [[Hc E] | [Hc E]];
        rewrite E in Ht; injection Ht as <- <-; [left; exact Hcz | qlra].
    - pose proof (Qdiv_zero h (inject_Z i) Hz) as Hcz.
      destruct (getWaffleSize_Fin (w / inject_Z j) (h / inject_Z i)) as [[Hc E] | [Hc E]];
        rewrite E in Ht; injection Ht as <- <-; [left; qlra | right; exact Hcz]. }
  destruct Hzero as [E | E]; rewrite E; ring.
Qed.

Local Open Scope Z_scope.

Lemma gtb_Fin (a b : Q) : (Fin a >? Fin b)%js = true <-> (b < a)%Q.
Proof.
  unfold gtb. cbn. rewrite negb_true_iff. apply Qle_bool_false.
Qed.

(** One candidate, on a viewport of positive size: the area of the best
    layout does not decrease, a best layout of positive area has enough
    cells, and an admissible candidate leaves a positive area. *)
Lemma considerLayout_sound (w h : Q) (count i j : Z) (best : WaffleChartLayout) (a : Q) :
  (0 < w)%Q -> (0 < h)%Q -> 0 < count -> 0 < i -> 0 < j ->
  totalArea best = Fin a -> (0 <= a)%Q ->
  ((0 < a)%Q -> rows best * columns best >= count) ->
  exists a' : Q,
    let best' := considerLayout {| width := Fin w; height := Fin h |} count i j best in
    totalArea best' = Fin a' /\ (a <= a')%Q /\
    ((0 < a')%Q -> rows best' * columns best' >= count) /\
    (i * j >= count -> (0 < a')%Q).
Proof.
  intros Hw Hh Hc Hi Hj Ha Ha0 Hbest. unfold considerLayout.
  destruct (Z.geb_spec (i * j) count) as [Hij | Hij].
  - destruct (calculateArea_positive w h count i j) as (c & -> & Hcpos); try assumption.
    cbn [totalArea]. rewrite Ha.
    destruct (Fin c >? Fin a)%js eqn:E.
    + apply gtb_Fin in E. exists c. cbn. repeat split; try lra; intros; lia.
    + exists a. assert (c <= a)%Q as Hca.
      { apply Qnot_lt_le. intros Hlt. apply gtb_Fin in Hlt. congruence. }
      cbn. split; [exact Ha|]. split; [lra|]. split; [exact Hbest|]. intros _; lra.
  - exists a. cbn. split; [exact Ha|]. split; [lra|]. split; [exact Hbest|]. lia.
Qed.


(** C10. For a viewport one of whose sides is zero (the other not
    negative) and any [count], [getBestLayout] returns the initial layout
    [{rows: 0, columns: 0, totalArea: 0}]: the area of every candidate is 0
    and only a strictly greater area replaces the best one.  So for
    [count > 0] the layout does not have [rows * columns >= count]. *)
Theorem getBestLayout_degenerate (w h : Q) (count : Z) :
  (0 <= w)%Q -> (0 <= h)%Q -> (w == 0 \/ h == 0)%Q ->
  let bestLayout := getBestLayout {| width := Fin w; height := Fin h |} count in
  bestLayout = initialLayout /\
  (0 < count -> ~ rows bestLayout * columns bestLayout >= count).
Proof.
  intros Hw Hh Hz. cbn zeta.
  assert (getBestLayout {| width := Fin w; height := Fin h |} count = initialLayout) as ->.
  { unfold getBestLayout.
    apply (for_upto_invariant (fun s => s = initialLayout)); [reflexivity|].
    intros i s Hi ->.
    apply (for_upto_invariant (fun s => s = initialLayout)); [reflexivity|].
    intros j s Hj ->. unfold considerLayout.
    destruct (i * j >=? count); [|reflexivity].
    destruct (calculateArea_zero w h count i j) as (a & -> & Ha);
      try assumption; try lia.
    cbn [totalArea initialLayout].
    destruct (Fin a >? 0)%js eqn:E; [|reflexivity].
    apply gtb_Fin in E. change (inject_Z 0) with 0%Q in E. lra. }
  split; [reflexivity|]. cbn. lia.
Qed.

(* ===================================================================== *)
(** ** Arrays                                                             *)
(* ===================================================================== *)

Local Open Scope nat_scope.

Section ArrayRules.
Context {T : Type}.
Implicit Types (a : array T) (v : value T) (i j : nat).

Lemma length_set a i v : length (set a i v) = Nat.max (length a) (S i).
Proof.
  unfold set. destruct (Nat.ltb_spec i (length a)).
  - rewrite length_insert. lia.
  - rewrite !length_app, length_replicate. cbn. lia.
Qed.

Lemma get_lt a i : i < length a -> a !! i = Some (get a i).
Proof.
  intros Hi. unfold get. destruct (lookup_lt_is_Some_2 a i Hi) as [x ->].
  reflexivity.
Qed.

Lemma get_ge a i : length a <= i -> get a i = Undefined.
Proof. intros Hi. unfold get. now rewrite lookup_ge_None_2. Qed.

Lemma get_set_eq a i v : get (set a i v) i = v.
Proof.
  unfold set, get. destruct (Nat.ltb_spec i (length a)).
  - now rewrite list_lookup_insert_eq.
  - rewrite lookup_app_r by lia.
    rewrite lookup_app_r by (rewrite length_replicate; lia).
    rewrite length_replicate.
    now replace (i - length a - (i - length a)) with 0 by lia.
Qed.

Lemma get_set_ne a i j v : i <> j -> get (set a i v) j = get a j.
Proof.
  intros Hij. unfold set. destruct (Nat.ltb_spec i (length a)).
  - unfold get. now rewrite list_lookup_insert_ne.
  - destruct (Nat.lt_ge_cases j (length a)) as [Hj | Hj].
    + unfold get. now rewrite lookup_app_l.
    + rewrite (get_ge a j Hj). unfold get. rewrite lookup_app_r by lia.
      destruct (Nat.lt_ge_cases j i) as [Hji | Hji].
      * rewrite lookup_app_l by (rewrite length_replicate; lia).
        rewrite lookup_replicate_2 by lia. reflexivity.
      * rewrite lookup_app_r by (rewrite length_replicate; lia).
        rewrite length_replicate.
        rewrite lookup_ge_None_2 by (cbn; lia). reflexivity.
Qed.

(** Two arrays of one length with the same elements are equal. *)
Lemma array_ext a b :
  length a = length b -> (forall i, i < length a -> get a i = get b i) -> a = b.
Proof.
  intros Hlen Hget. apply list_eq_same_length with (length a); [now symmetry | reflexivity|].
  intros i x y Hi Hx Hy. specialize (Hget i Hi). unfold get in Hget.
  rewrite Hx, Hy in Hget. exact Hget.
Qed.
End ArrayRules.

Section ForBelow.
Context {St : Type}.
Implicit Types (body : nat -> St -> St) (P : St -> Prop).

Lemma for_below_S body n s :
  for_below (S n) body s = body n (for_below n body s).
Proof. unfold for_below. rewrite seq_S, fold_left_app. reflexivity. Qed.

Lemma for_below_ext body1 body2 n s :
  (forall i s, body1 i s = body2 i s) ->
  for_below n body1 s = for_below n body2 s.
Proof.
  intros Hext. induction n as [|n IH]; [reflexivity|].
  now rewrite !for_below_S, IH, Hext.
Qed.

(** An invariant indexed by the number of turns done. *)
Lemma for_below_invariant (P : nat -> St -> Prop) body n s :
  P 0 s ->
  (forall k s, k < n -> P k s -> P (S k) (body k s)) ->
  P n (for_below n body s).
Proof.
  intros H0 Hstep. induction n as [|n IH]; [exact H0|].
  rewrite for_below_S. apply Hstep; [lia|]. apply IH.
  intros k s' Hk. apply Hstep. lia.
Qed.
End ForBelow.

(** A loop that rewrites every element of an array in place. *)
Lemma for_below_set {T : Type} (f : nat -> value T -> value T) (a : array T) :
  let a' := for_below (length a) (fun i a => set a i (f i (get a i))) a in
  length a' = length a /\ forall i, i < length a -> get a' i = f i (get a i).
Proof.
  cbn zeta.
  pose (P := fun (k : nat) (s : array T) =>
    length s = length a /\
    forall i, get s i = if i <? k then f i (get a i) else get a i).
  assert (P (length a) (for_below (length a) (fun i a => set a i (f i (get a i))) a))
    as [Hlen Hget].
  { apply (for_below_invariant P).
    - split; [reflexivity|]. intros i. reflexivity.
    - intros k s Hk [Hlen Hget]. split.
      + rewrite length_set. lia.
      + intros i. destruct (Nat.eq_dec k i) as [<- | Hne].
        * rewrite get_set_eq, Hget, Nat.ltb_irrefl.
          now replace (k <? S k) with true by (symmetry; apply Nat.ltb_lt; lia).
        * rewrite get_set_ne by exact Hne. rewrite Hget.
          destruct (Nat.ltb_spec i k), (Nat.ltb_spec i (S k)); try reflexivity; lia. }
  split; [exact Hlen|]. intros i Hi. rewrite Hget.
  now replace (i <? length a) with true by (symmetry; apply Nat.ltb_lt; lia).
Qed.

(* ===================================================================== *)
(** ** Numbers                                                            *)
(* ===================================================================== *)

Lemma leb_trans (x y z : number) :
  (x <=? y)%js = true -> (y <=? z)%js = true -> (x <=? z)%js = true.
Proof.
  destruct x as [a| | |], y as [b| | |], z as [c| | |]; cbn; try congruence.
  rewrite !Qle_bool_iff. apply Qle_trans.
Qed.

Lemma leb_gtb (x y : number) : (x <=? y)%js = true -> (x >? y)%js = false.
Proof.
  destruct x as [a| | |], y as [b| | |]; cbn; try congruence.
  intros ->. reflexivity.
Qed.

Lemma gtb_leb (x y : number) : (x >? y)%js = true -> (y <=? x)%js = true.
Proof.
  destruct x as [a| | |], y as [b| | |]; cbn; try congruence.
  rewrite negb_true_iff, Qle_bool_iff. intros H%Qle_bool_false.
  now apply Qlt_le_weak.
Qed.

Lemma max2_cases (a b : number) :
  (a <=? a)%js = true -> (b <=? b)%js = true ->
  (max2 a b = a \/ max2 a b = b) /\
  (a <=? max2 a b)%js = true /\ (b <=? max2 a b)%js = true.
Proof.
  destruct a as [a| | |], b as [b| | |]; cbn; try congruence; auto.
  intros Ha Hb. destruct (Qle_bool b a) eqn:E; cbn; auto.
  repeat split; auto. apply Qle_bool_false in E.
  apply Qle_bool_iff. now apply Qlt_le_weak.
Qed.

(** [Math.max] of numbers none of which is [NaN]: an upper bound, and
    either [-Infinity] or one of the numbers. *)
Lemma Math_max_upper (l : list number) :
  Forall (fun x => (x <=? x)%js = true) l ->
  let peak := Math_max l in
  (peak = NegInf \/ peak ∈ l) /\ Forall (fun x => (x <=? peak)%js = true) l.
Proof.
  intros Hl. cbn zeta. unfold Math_max.
  assert (forall acc, (acc <=? acc)%js = true ->
            let r := fold_left max2 l acc in
            (r = acc \/ r ∈ l) /\ (acc <=? r)%js = true /\
            Forall (fun x => (x <=? r)%js = true) l) as Hgen.
  { induction Hl as [|x l Hx Hl IH]; intros acc Hacc; cbn.
    - split; [now left|]. split; [exact Hacc | constructor].
    - destruct (max2_cases acc x Hacc Hx) as (Hm & Hle1 & Hle2).
      assert ((max2 acc x <=? max2 acc x)%js = true) as Hrefl
        by (destruct Hm as [-> | ->]; assumption).
      destruct (IH (max2 acc x) Hrefl) as (Hr & Hle & Hall).
      split; [|split].
      + destruct Hr as [-> | Hin]; [|right; now right].
        destruct Hm as [-> | ->]; [now left | right; now left].
      + eapply leb_trans; eassumption.
      + constructor; [eapply leb_trans; eassumption | exact Hall]. }
  destruct (Hgen NegInf eq_refl) as (Hr & _ & Hall). split; [exact Hr | exact Hall].
Qed.

Lemma div_zero_not_finite (x : number) (r : Q) :
  (r == 0)%Q -> isFinite (x / Fin r)%js = false.
Proof.
  intros Hr. apply Qeq_bool_iff in Hr.
  destruct x as [a| | |]; cbn; rewrite ?Hr; try reflexivity.
  now destruct (a ?= 0)%Q.
Qed.

Lemma Math_round_not_finite (x : number) :
  isFinite x = false -> isFinite (Math_round x) = false.
Proof. now destruct x. Qed.

Lemma Qfloor_half (z : Z) : Qfloor (inject_Z z + (1 # 2)) = z.
Proof.
  pose proof (Qfloor_le (inject_Z z + (1 # 2))) as H1.
  pose proof (Qlt_floor (inject_Z z + (1 # 2))) as H2.
  set (f := Qfloor (inject_Z z + (1 # 2))) in *.
  assert (f < z + 1)%Z as H3.
  { rewrite Zlt_Qlt, inject_Z_plus. change (inject_Z 1) with 1%Q.
    revert H1. generalize (inject_Z f), (inject_Z z). intros; lra. }
  assert (z < f + 1)%Z as H4.
  { rewrite Zlt_Qlt. revert H2. rewrite !inject_Z_plus. change (inject_Z 1) with 1%Q.
    generalize (inject_Z f), (inject_Z z). intros; lra. }
  lia.
Qed.

Lemma Math_round_le (q : Q) (z : Z) :
  (q <= inject_Z z)%Q -> (Math_round (Fin q) <=? z)%js = true.
Proof.
  intros Hq. unfold Math_round, of_Z, leb. apply Qle_bool_iff. rewrite <- Zle_Qle.
  rewrite <- (Qfloor_half z). apply Qfloor_resp_le.
  revert Hq. generalize (inject_Z z). intros; lra.
Qed.


(* ===================================================================== *)
(** ** Normalisation                                                      *)
(* ===================================================================== *)

Lemma map_ToNumber_Fin (qs : list Q) :
  map ToNumber (map (fun q => Val (Fin q)) qs) = map Fin qs.
Proof. induction qs as [|q qs IH]; cbn; [reflexivity | now rewrite IH]. Qed.

(** The rescaling loop, as a map. *)
Lemma rescale_map (g : number -> number) (totals : array number) :
  for_below (length totals)
    (fun i totals => set totals i (Val (g (ToNumber (get totals i))))) totals
  = map (fun t => Val (g (ToNumber t))) totals.
Proof.
  destruct (for_below_set (fun _ t => Val (g (ToNumber t))) totals) as [Hlen Hget].
  apply array_ext.
  - now rewrite length_map.
  - intros i Hi. rewrite Hlen in Hi. rewrite (Hget i Hi).
    unfold get at 2. rewrite list_lookup_fmap, (get_lt totals i Hi). reflexivity.
Qed.

Local Open Scope Z_scope.

(** With max bounds: the length is kept and every total is rewritten. *)
Lemma normalize_bounds_get (totals : array number)
    (minValues : option (array number)) (maxValues : array number) :
  let min_ (i : nat) : number :=
    match minValues with
    | Some minValues =>
        if truthy (get minValues i) then ToNumber (get minValues i) else of_Z 0
    | None => of_Z 0
    end in
  length (normalize totals minValues (Some maxValues)) = length totals /\
  forall i, (i < length totals)%nat ->
    get (normalize totals minValues (Some maxValues)) i
    = Val (Math_round ((ToNumber (get totals i) - min_ i) * 100
                       / (ToNumber (get maxValues i) - min_ i))%js).
Proof.
  intros min_. unfold normalize.
  destruct (for_below_set
    (fun i t => Val (Math_round ((ToNumber t - min_ i) * 100
                     / (ToNumber (get maxValues i) - min_ i))%js)) totals)
    as [Hlen Hget].
  erewrite for_below_ext; [split; [exact Hlen | exact Hget]|].
  intros i s. cbn beta. unfold min_.
  destruct minValues as [mv|]; [|reflexivity].
  now destruct (truthy (get mv i)).
Qed.


(** Without bounds and with a peak above 100, every total is rescaled. *)
Lemma normalize_rescale (totals : array number) :
  let peak := Math_max (map ToNumber totals) in
  (peak >? 100)%js = true ->
  normalize totals None None
  = map (fun t => Val (Math_round (ToNumber t * 100 / peak)%js)) totals.
Proof.
  cbn zeta. intros Hpeak. unfold normalize. rewrite Hpeak.
  apply (rescale_map (fun x => Math_round (x * 100 / _)%js)).
Qed.


(** C4. Without bounds, totals that are all at most 100 go through
    unchanged: the values of the view model are the totals, element for
    element; the series [10, 50, 90] gives [10, 50, 90]. *)
Theorem normalize_identity_up_to_100 :
  (forall totals : array number,
     Forall (fun v => (ToNumber v <=? 100)%js = true) totals ->
     normalize totals None None = totals) /\
  (forall (Identity Objects : Type) (format : value string -> value string)
          (dataView : @DataView Identity Objects) (sums : array number),
     totals (readSeries dataView) = Some sums ->
     maxValues (readSeries dataView) = None ->
     Forall (fun v => (ToNumber v <=? 100)%js = true) sums ->
     vm_values (converter format dataView) = sums) /\
  vm_values (converter id (abcSeries [10; 50; 90]))
  = [Val (10 : number); Val (50 : number); Val (90 : number)].
Proof.
  assert (forall (totals : array number) (minValues : option (array number)),
            Forall (fun v => (ToNumber v <=? 100)%js = true) totals ->
            normalize totals minValues None = totals) as Hnorm.
  { intros totals minValues Hall. unfold normalize.
    destruct (Math_max_upper (map ToNumber totals)) as [Hin Hup].
    { rewrite Forall_fmap. eapply Forall_impl; [exact Hall|].
      intros v Hv. destruct v as [[q| | |]| |]; cbn in *; try congruence;
        apply Qle_bool_iff, Qle_refl. }
    assert ((Math_max (map ToNumber totals) <=? 100)%js = true) as Hle.
    { destruct Hin as [-> | (v & -> & Hv)%list_elem_of_fmap]; [reflexivity|].
      rewrite Forall_forall in Hall. now apply Hall. }
    now rewrite (leb_gtb _ _ Hle). }
  split; [intros totals; apply Hnorm|]. split; [|reflexivity].
  intros Identity Objects format dataView sums Hsums Hmax Hall.
  unfold converter. cbn [vm_values]. rewrite Hsums, Hmax. now apply Hnorm.
Qed.

(* ===================================================================== *)
(** ** The view model                                                     *)
(* ===================================================================== *)

Lemma length_normalize (totals : array number) (minValues maxValues : option (array number)) :
  length (normalize totals minValues maxValues) = length totals.
Proof.
  destruct maxValues as [maxValues|].
  - apply (normalize_bounds_get totals minValues maxValues).
  - unfold normalize. destruct (_ >? _)%js; [|reflexivity].
    rewrite (rescale_map (fun x => Math_round (x * 100 / _)%js)). apply length_map.
Qed.

Lemma length_zeros (n : nat) :
  length (for_below n (fun _ (totals : array number) => totals ++ [Val (0 : number)]) [])
  = n.
Proof.
  apply (for_below_invariant (fun k (s : array number) => length s = k)); [reflexivity|].
  intros k s _ <-. rewrite length_app. cbn. lia.
Qed.

(** [sumValues] keeps the totals and the paths of one length. *)
Lemma sumValues_aligned (totals localValues : array number) (paths : array string)
    (currentPath : value string) :
  length totals = length paths ->
  length (sumValues totals localValues paths currentPath).1
  = length (sumValues totals localValues paths currentPath).2.
Proof.
  intros Hlen. unfold sumValues.
  apply (for_below_invariant
           (fun _ (s : array number * array string) => length s.1 = length s.2));
    [exact Hlen|].
  intros k [t p] _ Haligned. cbn in *.
  destruct (truthy (get localValues k)); [|exact Haligned].
  cbn. rewrite !length_set. lia.
Qed.

Local Open Scope nat_scope.

Section ViewModel.
Context {Identity Objects : Type}.
Variable format : value string -> value string.
Implicit Types (dataView : @DataView Identity Objects) (s : @Series).

Lemma readColumn_aligned pathsGroups column s :
  aligned s -> aligned (readColumn pathsGroups column s).
Proof.
  unfold aligned, readColumn. destruct s as [t p mn mx idx]. cbn. intros Hs.
  destruct (hasRole (source column) Values).
  - assert (exists t0 p0,
              match t with
              | Some t => (t, default [] p)
              | None => (replicate (length (col_values column)) (Val (of_Z 0)),
                         replicate (length (col_values column)) Undefined)
              end = (t0, p0) /\ length t0 = length p0) as (t0 & p0 & -> & Hlen).
    { destruct t as [t|], p as [p|]; try contradiction; eexists _, _;
        (split; [reflexivity|]); [exact Hs | now rewrite !length_replicate]. }
    pose proof (sumValues_aligned t0 (col_values column) p0 (get pathsGroups idx) Hlen)
      as H.
    destruct (sumValues t0 (col_values column) p0 (get pathsGroups idx)). exact H.
  - destruct (hasRole (source column) MinValue); [exact Hs|].
    destruct (hasRole (source column) MaxValue); exact Hs.
Qed.

Lemma readSeries_aligned dataView : aligned (readSeries dataView).
Proof.
  unfold readSeries.
  destruct (values dataView) as [cv|]; [|exact I].
  destruct (metadata_columns dataView); [|exact I].
  generalize (map (fun g => sanitizePathD (name g)) (grouped cv)). intros pathsGroups.
  assert (aligned noSeries) as H0 by exact I. revert H0.
  generalize noSeries. induction (valueColumns cv) as [|column cols IH]; intros s Hs.
  - exact Hs.
  - cbn [fold_left]. apply IH. now apply readColumn_aligned.
Qed.

Lemma readColumn_totals pathsGroups column s :
  totals (readColumn pathsGroups column s) = None <->
  totals s = None /\ hasRole (source column) Values = false.
Proof.
  unfold readColumn. destruct (hasRole (source column) Values).
  - repeat match goal with |- context [let '(_, _) := ?x in _] => destruct x end.
    cbn. split; [discriminate | intros [_ ?]; discriminate].
  - destruct (hasRole (source column) MinValue);
      [|destruct (hasRole (source column) MaxValue)]; cbn; tauto.
Qed.

(** The totals exist exactly when some value column has the role "Values". *)
Lemma readSeries_totals dataView :
  totals (readSeries dataView) = None <->
  ~ exists categoricalValues,
      values dataView = Some categoricalValues /\
      metadata_columns dataView = true /\
      Exists (fun column => hasRole (source column) Values = true)
             (valueColumns categoricalValues).
Proof.
  unfold readSeries.
  destruct (values dataView) as [cv|];
    [|split; [intros _ (? & ? & _); discriminate | reflexivity]].
  destruct (metadata_columns dataView);
    [|split; [intros _ (? & _ & ? & _); discriminate | reflexivity]].
  generalize (map (fun g => sanitizePathD (name g)) (grouped cv)). intros pathsGroups.
  assert (forall cols s,
            totals (fold_left (fun s column => readColumn pathsGroups column s) cols s)
            = None <->
            totals s = None /\
            Forall (fun column => hasRole (source column) Values = false) cols) as Hfold.
  { induction cols as [|column cols IH]; intros s; cbn [fold_left].
    - split; [intros H; split; [exact H | constructor] | intros [H _]; exact H].
    - rewrite IH, readColumn_totals, Forall_cons. tauto. }
  rewrite Hfold. split.
  - intros [_ Hall] (cv' & [= <-] & _ & Hex).
    apply Exists_exists in Hex as (column & Hin & Hrole).
    rewrite Forall_forall in Hall. specialize (Hall column Hin). congruence.
  - intros Hno. split; [reflexivity|]. apply Forall_forall. intros column Hin.
    destruct (hasRole (source column) Values) eqn:E; [|reflexivity].
    exfalso. apply Hno. exists cv. split; [reflexivity|]. split; [reflexivity|].
    apply Exists_exists. now exists column.
Qed.

(** The labels of the view model are those of the first category column,
    possibly reformatted. *)
Lemma converter_labels dataView :
  match categories dataView with
  | Some (category0 :: _) =>
      exists l, labelsArray (converter format dataView) = Some l /\
                length l = length (cat_values category0) /\
                identities (converter format dataView) = Some (cat_identity category0)
  | _ => labelsArray (converter format dataView) = None /\
         identities (converter format dataView) = None
  end.
Proof.
  unfold converter. cbn [labelsArray identities].
  destruct (categories dataView) as [[|category0 cs]|]; cbn; try (split; reflexivity).
  destruct (cat_dateTime category0); eexists; (split; [reflexivity|]); split;
    try reflexivity.
  apply length_map.
Qed.

Lemma converter_count_eq dataView :
  count (converter format dataView)
  = getCount (labelsArray (converter format dataView)) (totals (readSeries dataView)).
Proof. reflexivity. Qed.

Lemma converter_values_length dataView :
  length (vm_values (converter format dataView))
  = match totals (readSeries dataView) with
    | Some t => length t
    | None => default 0%nat (count (converter format dataView))
    end.
Proof.
  unfold converter. cbn [vm_values count]. rewrite length_normalize.
  destruct (totals (readSeries dataView)); [reflexivity|]. apply length_zeros.
Qed.

Lemma converter_paths dataView :
  match paths (converter format dataView), totals (readSeries dataView) with
  | Some p, Some t => length p = length t
  | None, None => True
  | _, _ => False
  end.
Proof.
  pose proof (readSeries_aligned dataView) as H. unfold aligned in H.
  unfold converter. cbn [paths].
  destruct (totals (readSeries dataView)), (s_paths (readSeries dataView));
    try contradiction; auto.
Qed.

(** C5, amended.  When the count is defined, the values and the labels
    (when there are categories) have at most [count] elements and one of
    the two has exactly [count]; the paths, when there are any, have the
    length of the values; the identities, when there are any, are those of
    the first category column, whose values give the labels.  When the
    labels, if any, have the length of the values, values, labels and paths
    all have exactly [count] elements. *)
Theorem converter_lengths dataView (n : nat) :
  count (converter format dataView) = Some n ->
  let vm := converter format dataView in
  length (vm_values vm) <= n /\
  (forall l, labelsArray vm = Some l -> length l <= n) /\
  (length (vm_values vm) = n \/ exists l, labelsArray vm = Some l /\ length l = n) /\
  (forall p, paths vm = Some p -> length p = length (vm_values vm)) /\
  (forall ids, identities vm = Some ids ->
     exists category0 cs l,
       categories dataView = Some (category0 :: cs) /\ ids = cat_identity category0 /\
       labelsArray vm = Some l /\ length l = length (cat_values category0)) /\
  ((forall l, labelsArray vm = Some l -> length l = length (vm_values vm)) ->
   length (vm_values vm) = n /\
   (forall l, labelsArray vm = Some l -> length l = n) /\
   (forall p, paths vm = Some p -> length p = n)).
Proof.
  intros Hcount. cbn zeta.
  pose proof (converter_values_length dataView) as Hvalues.
  pose proof (converter_paths dataView) as Hpaths.
  pose proof (converter_labels dataView) as Hlabels.
  rewrite Hcount in Hvalues. rewrite converter_count_eq in Hcount.
  set (vm := converter format dataView) in *. clearbody vm.
  assert (forall p, paths vm = Some p -> length p = length (vm_values vm)) as Hp.
  { intros p Ep. rewrite Ep in Hpaths.
    destruct (totals (readSeries dataView)); [congruence | contradiction]. }
  assert (length (vm_values vm) <= n /\
          (forall l, labelsArray vm = Some l -> length l <= n) /\
          (length (vm_values vm) = n \/
           exists l, labelsArray vm = Some l /\ length l = n)) as (Hv & Hl & Hone).
  { destruct (labelsArray vm) as [l|], (totals (readSeries dataView)) as [t|];
      cbn [getCount] in Hcount; cbn in Hvalues; try discriminate;
      injection Hcount as <-.
    - split; [lia|]. split; [intros ? [= <-]; lia|].
      destruct (Nat.max_dec (length l) (length t)) as [E | E]; rewrite E.
      + right. now exists l.
      + left. exact Hvalues.
    - split; [lia|]. split; [intros ? [= <-]; lia|]. now left.
    - split; [lia|]. split; [discriminate|]. now left. }
  split; [exact Hv|]. split; [exact Hl|]. split; [exact Hone|]. split; [exact Hp|].
  split.
  - intros ids Hids.
    destruct (categories dataView) as [[|category0 cs]|];
      try (destruct Hlabels as [_ Hnone]; congruence).
    destruct Hlabels as (l & El & Hlen & Eids).
    exists category0, cs, l. repeat split; try assumption. congruence.
  - intros Hsame.
    assert (length (vm_values vm) = n) as Hn.
    { destruct Hone as [E | (l & El & E)]; [exact E|]. now rewrite <- (Hsame l El). }
    split; [exact Hn|]. split.
    + intros l El. now rewrite (Hsame l El).
    + intros p Ep. now rewrite (Hp p Ep).
Qed.

(** C8. The count is the larger of the two lengths when both the labels
    and the totals exist, the length of the one that exists when only one
    does, and undefined when neither does; in that last case the converter
    still returns a view model, with no value, from which [initWaffles]
    makes no waffle.  Labels exist when there is a first category column,
    totals when some value column has the role "Values". *)
Theorem converter_count dataView :
  let vm := converter format dataView in
  match labelsArray vm, totals (readSeries dataView) with
  | Some labels, Some sums => count vm = Some (Nat.max (length labels) (length sums))
  | Some labels, None => count vm = Some (length labels)
  | None, Some sums => count vm = Some (length sums)
  | None, None =>
      count vm = None /\ vm_values vm = [] /\ initWaffles (count vm) (paths vm) = []
  end /\
  (labelsArray vm = None <->
   categories dataView = None \/ categories dataView = Some []) /\
  (totals (readSeries dataView) = None <->
   ~ exists categoricalValues,
       values dataView = Some categoricalValues /\
       metadata_columns dataView = true /\
       Exists (fun column => hasRole (source column) Values = true)
              (valueColumns categoricalValues)).
Proof.
  cbn zeta. split; [|split; [|apply readSeries_totals]].
  - pose proof (converter_values_length dataView) as Hvalues.
    rewrite converter_count_eq in *.
    destruct (labelsArray (converter format dataView)) as [l|],
             (totals (readSeries dataView)) as [t|]; cbn; try reflexivity.
    split; [reflexivity|]. split; [|reflexivity].
    cbn in Hvalues. now apply length_zero_iff_nil.
  - pose proof (converter_labels dataView) as Hlabels.
    destruct (categories dataView) as [[|category0 cs]|].
    + destruct Hlabels as [-> _]. split; auto.
    + destruct Hlabels as (l & -> & _). split; [discriminate|].
      intros [? | ?]; discriminate.
    + destruct Hlabels as [-> _]. split; auto.
Qed.
End ViewModel.

(** C5 as stated fails: three categories and a value series of two
    entries give the count 3, three labels, but two values and two paths. *)
Lemma converter_lengths_differ :
  let vm := converter id (abcSeries [10; 50]%Z) in
  count vm = Some 3%nat /\ labelsArray vm = Some [Val "A"%string; Val "B"%string; Val "C"%string] /\
  length (vm_values vm) = 2%nat /\
  exists p, paths vm = Some p /\ length p = 2%nat.
Proof.
  cbn zeta. split; [reflexivity|]. split; [reflexivity|]. split; [reflexivity|].
  eexists. split; reflexivity.
Qed.

Local Open Scope Z_scope.

(* ===================================================================== *)
(** ** Path labels: the regular expression                                *)
(* ===================================================================== *)

Lemma inClass_disallowed (c : ascii) :
  inClass c = existsb (Ascii.eqb c) disallowedGlyphs.
Proof.
  destruct c as [[] [] [] [] [] [] [] []]; vm_compute; reflexivity.
Qed.

Lemma inClass_iff (c : ascii) : inClass c = true <-> In c disallowedGlyphs.
Proof.
  rewrite inClass_disallowed, existsb_exists. split.
  - intros (d & Hd & ->%Ascii.eqb_eq). exact Hd.
  - intros Hc. exists c. split; [exact Hc | apply Ascii.eqb_refl].
Qed.

Lemma regex_test_iff (s : string) : regex_test s = true <-> containsDisallowed s.
Proof.
  unfold containsDisallowed. induction s as [|c s IH]; cbn [regex_test matchClassPlus].
  - split; [discriminate | intros (c & [] & _)].
  - destruct (inClass c) eqn:E.
    + split; [intros _ | reflexivity]. exists c. split; [now left | now apply inClass_iff].
    + rewrite IH. cbn [list_ascii_of_string]. split.
      * intros (d & Hd & Hdis). exists d. split; [now right | exact Hdis].
      * intros (d & [<- | Hd] & Hdis).
        -- apply inClass_iff in Hdis. congruence.
        -- now exists d.
Qed.

(** C9. [sanitizePathD] gives [null] exactly for the labels with a
    character among b d f g i j k n o p r u w x y, in either case, and the
    label itself otherwise; it is a total function, so never an error. *)
Theorem sanitizePathD_spec (label : string) :
  (containsDisallowed label -> sanitizePathD label = Null) /\
  (~ containsDisallowed label -> sanitizePathD label = Val label).
Proof.
  unfold sanitizePathD. destruct (regex_test label) eqn:E.
  - split; [reflexivity|]. intros Hno. now apply regex_test_iff in E.
  - split; [|reflexivity]. intros Hyes%regex_test_iff. congruence.
Qed.

(* ===================================================================== *)
(** ** Glyph filling                                                      *)
(* ===================================================================== *)


Lemma fillDots_unroll (percentage : number) :
  fillDots percentage
  = (fun i => (fun j =>
        Some (Nat.iter (visitRank i j) decrement percentage >? 0)%js) <$> seq 0 10)
    <$> seq 0 10.
Proof.
  unfold fillDots.
  pose (dec := decrement). pose (pos := fun x : number => (x >? 0)%js).
  change (snd (for_downfrom 9 (fun i st =>
            for_below 10 (fun j '(percentage, dotArray) =>
              (dec percentage, alter (<[j := Some (pos percentage)]>) i dotArray)) st)
            (percentage, noDots))
          = ((fun i => (fun j =>
               Some (pos (Nat.iter (visitRank i j) dec percentage))) <$> seq 0 10)
             <$> seq 0 10)).
  clearbody dec pos. cbv. reflexivity.
Qed.

Lemma iter_decrement (k : nat) (q : Q) :
  exists q', Nat.iter k decrement (Fin q) = Fin q' /\
             (q' == q - inject_Z (Z.of_nat k))%Q.
Proof.
  induction k as [|k (q' & E & Hq')].
  - exists q. split; [reflexivity|]. cbn. ring.
  - exists (q' - 1)%Q. split.
    { change (Nat.iter (S k) decrement (Fin q))
        with (decrement (Nat.iter k decrement (Fin q))).
      now rewrite E. }
    rewrite Hq', Nat2Z.inj_succ. unfold Z.succ. rewrite inject_Z_plus.
    change (inject_Z 1) with 1%Q. ring.
Qed.

(** C7. The dots are filled from the bottom row up ([i] from 9 down to
    0, [j] from 0 to 9): the dot [(i, j)] gets the accent colour exactly
    when the counter, started at [percent] and decremented at each dot, is
    still above 0 when it comes to it.  So 0 fills no dot, 100 fills them
    all, and 37 fills the three bottom rows and the first seven dots of the
    fourth row from the bottom: 37 dots. *)
Theorem fillDots_bottom_up :
  (forall (percent : Q) (i j : nat), (i < 10)%nat -> (j < 10)%nat ->
     exists filled : bool,
       fillDots (Fin percent) !! i ≫= (.!! j) = Some (Some filled) /\
       (filled = true <-> (inject_Z (Z.of_nat (visitRank i j)) < percent)%Q)) /\
  fillDots 0 = replicate 10 (replicate 10 (Some false)) /\
  fillDots 100 = replicate 10 (replicate 10 (Some true)) /\
  fillDots 37 = replicate 6 (replicate 10 (Some false))
                ++ [replicate 7 (Some true) ++ replicate 3 (Some false)]
                ++ replicate 3 (replicate 10 (Some true)) /\
  length (filter (fun d => d = Some true) (concat (fillDots 37))) = 37%nat.
Proof.
  split; [|repeat split; reflexivity].
  intros percent i j Hi Hj. rewrite fillDots_unroll.
  destruct (iter_decrement (visitRank i j) percent) as (q' & E & Hq').
  exists (Fin q' >? 0)%js. split.
  - rewrite list_lookup_fmap, lookup_seq_lt by exact Hi. cbn [fmap option_fmap option_map mbind option_bind Nat.add].
    rewrite list_lookup_fmap, lookup_seq_lt by exact Hj.
    cbn [fmap option_fmap option_map Nat.add]. now rewrite E.
  - rewrite (gtb_Fin q' 0), Hq'. split; intros; lra.
Qed.

(* ===================================================================== *)
(** ** The theorems at work                                               *)
(* ===================================================================== *)



Lemma getBestLayout_degenerate_witness :
  let bestLayout := getBestLayout {| width := Fin 0; height := Fin 500 |} 5 in
  bestLayout = initialLayout /\
  (0 < 5 -> ~ rows bestLayout * columns bestLayout >= 5).
Proof.
  apply (getBestLayout_degenerate 0 500 5).
  - discriminate.
  - discriminate.
  - left. reflexivity.
Defined.



Lemma normalize_identity_up_to_100_witness :
  normalize [Val (10 : number); Val (50 : number); Val (90 : number)] None None
  = [Val (10 : number); Val (50 : number); Val (90 : number)].
Proof.
  apply (proj1 normalize_identity_up_to_100).
  repeat constructor.
Defined.

Lemma converter_lengths_witness :
  let vm := converter id (abcSeries [10; 50]) in
  (length (vm_values vm) <= 3)%nat /\
  (forall l, labelsArray vm = Some l -> (length l <= 3)%nat) /\
  (length (vm_values vm) = 3%nat \/
   exists l, labelsArray vm = Some l /\ length l = 3%nat) /\
  (forall p, paths vm = Some p -> length p = length (vm_values vm)).
Proof.
  destruct (converter_lengths id (abcSeries [10; 50]) 3 eq_refl)
    as (Hv & Hl & Hone & Hp & _).
  repeat split; assumption.
Defined.

Lemma sanitizePathD_spec_witness :
  sanitizePathD "hello" = Null /\ sanitizePathD "M0 0 L4 4 Z" = Val "M0 0 L4 4 Z"%string.
Proof.
  split.
  - apply (proj1 (sanitizePathD_spec "hello")).
    exists "o"%char. split; vm_compute; tauto.
  - apply (proj2 (sanitizePathD_spec "M0 0 L4 4 Z")).
    intros (c & Hc & Hdis). vm_compute in Hc, Hdis.
    repeat match goal with
           | H : _ \/ _ |- _ => destruct H as [H | H]
           end; subst; try contradiction; discriminate.
Defined.

Lemma fillDots_bottom_up_witness :
  exists filled : bool,
    fillDots (Fin 37) !! 6%nat ≫= (.!! 6%nat) = Some (Some filled) /\
    (filled = true <-> (inject_Z (Z.of_nat (visitRank 6 6)) < 37)%Q).
Proof.
  apply (proj1 fillDots_bottom_up 37%Q 6%nat 6%nat); lia.
Defined.

Local Open Scope Z_scope.

(* ===================================================================== *)
(** ** The layout search, further                                         *)
(* ===================================================================== *)

Lemma ltb_trans (x y z : number) :
  ltb x y = true -> ltb y z = true -> ltb x z = true.
Proof.
  destruct x as [a| | |], y as [b| | |], z as [c| | |]; cbn; try congruence.
  rewrite !negb_true_iff, !Qle_bool_false. apply Qlt_trans.
Qed.

Lemma leb_ltb_trans (x y z : number) :
  (x <=? y)%js = true -> ltb y z = true -> ltb x z = true.
Proof.
  destruct x as [a| | |], y as [b| | |], z as [c| | |]; cbn; try congruence.
  rewrite !negb_true_iff, !Qle_bool_false, Qle_bool_iff. apply Qle_lt_trans.
Qed.

Lemma gtb_false_leb (a b : Q) :
  (Fin a >? Fin b)%js = false -> (Fin a <=? Fin b)%js = true.
Proof.
  unfold gtb. cbn. rewrite negb_false_iff. trivial.
Qed.

Lemma ltb_irrefl (x : number) : ltb x x = false.
Proof.
  destruct x as [a| | |]; cbn; try reflexivity.
  apply negb_false_iff, Qle_bool_iff, Qle_refl.
Qed.

Section IndexedLoops.
Context {St : Type}.
Implicit Types (body : Z -> St -> St) (P : Z -> St -> Prop).

Lemma iterate_invariant_at P body n lo s :
  P lo s ->
  (forall k s, lo <= k < lo + Z.of_nat n -> P k s -> P (k + 1) (body k s)) ->
  P (lo + Z.of_nat n) (iterate n lo body s).
Proof.
  revert lo s. induction n as [|n IH]; intros lo s Hs Hbody.
  - cbn. now rewrite Z.add_0_r.
  - cbn [iterate]. replace (lo + Z.of_nat (S n)) with (lo + 1 + Z.of_nat n) by lia.
    apply IH.
    + apply Hbody; [lia | exact Hs].
    + intros k s' Hk. apply Hbody. lia.
Qed.

(** An invariant that knows the next index of the loop. *)
Lemma for_upto_invariant_at P body lo hi s :
  lo <= hi + 1 ->
  P lo s ->
  (forall k s, lo <= k <= hi -> P k s -> P (k + 1) (body k s)) ->
  P (hi + 1) (for_upto lo hi body s).
Proof.
  intros Hle Hs Hbody. unfold for_upto.
  replace (hi + 1) with (lo + Z.of_nat (Z.to_nat (hi + 1 - lo))) at 1 by lia.
  apply iterate_invariant_at; [exact Hs|].
  intros k s' Hk. apply Hbody. lia.
Qed.
End IndexedLoops.

(** Whatever the viewport, the search returns the initial layout or one
    of the candidates it tried, of area above 0. *)
Lemma getBestLayout_tried (viewport : IViewport) (count : Z) :
  let bestLayout := getBestLayout viewport count in
  bestLayout = initialLayout \/
  (1 <= rows bestLayout <= count /\ 1 <= columns bestLayout <= count /\
   rows bestLayout * columns bestLayout >= count /\
   bestLayout = calculateArea viewport count (rows bestLayout) (columns bestLayout) /\
   (totalArea bestLayout >? 0)%js = true).
Proof.
  cbn zeta. unfold getBestLayout.
  set (Tried := fun b : WaffleChartLayout =>
    b = initialLayout \/
    (1 <= rows b <= count /\ 1 <= columns b <= count /\
     rows b * columns b >= count /\
     b = calculateArea viewport count (rows b) (columns b) /\
     (totalArea b >? 0)%js = true)).
  apply (for_upto_invariant Tried); [now left|].
  intros i s Hi Hs. apply (for_upto_invariant Tried); [exact Hs|].
  clear s Hs. intros j s Hj Hs. unfold considerLayout.
  destruct (Z.geb_spec (i * j) count) as [Hij | Hij]; [|exact Hs].
  destruct (totalArea (calculateArea viewport count i j) >? totalArea s)%js eqn:E;
    [|exact Hs].
  right. cbn [rows columns calculateArea]. repeat split; try lia.
  destruct Hs as [-> | (_ & _ & _ & _ & Hpos)]; [exact E|].
  unfold gtb in *. eapply ltb_trans; eassumption.
Qed.

Section FirstMaximum.
Variables (w h : Q) (count : Z).
Hypotheses (Hw : (0 < w)%Q) (Hh : (0 < h)%Q) (Hcount : 0 < count).

Let v : IViewport := {| width := Fin w; height := Fin h |}.
Let area (i j : Z) : number := totalArea (calculateArea v count i j).
Let inRange (i j : Z) : Prop := 1 <= i <= count /\ 1 <= j <= count.
Let before (i j i0 j0 : Z) : Prop := i < i0 \/ (i = i0 /\ j < j0).

(** What the search has found when it comes to the candidate [(i0, j0)]:
    the first of the largest admissible candidates before it, if any. *)
Let FirstMax (i0 j0 : Z) (best : WaffleChartLayout) : Prop :=
  (best = initialLayout /\
   forall i j, inRange i j -> before i j i0 j0 -> ~ i * j >= count) \/
  (exists r c,
     inRange r c /\ before r c i0 j0 /\ r * c >= count /\
     best = calculateArea v count r c /\
     forall i j, inRange i j -> before i j i0 j0 -> i * j >= count ->
       (area i j <=? area r c)%js = true /\
       (before i j r c -> (area r c >? area i j)%js = true)).

Lemma area_positive (i j : Z) :
  0 < i -> 0 < j -> exists a, area i j = Fin a /\ (0 < a)%Q.
Proof.
  intros Hi Hj. unfold area, v.
  destruct (calculateArea_positive w h count i j Hw Hh Hcount Hi Hj) as (a & -> & Ha).
  now exists a.
Qed.

Lemma area_leb_refl (i j : Z) : 0 < i -> 0 < j -> (area i j <=? area i j)%js = true.
Proof.
  intros Hi Hj. destruct (area_positive i j Hi Hj) as (a & -> & _).
  apply Qle_bool_iff, Qle_refl.
Qed.

Lemma FirstMax_step (i0 j0 : Z) (best : WaffleChartLayout) :
  inRange i0 j0 -> FirstMax i0 j0 best ->
  FirstMax i0 (j0 + 1) (considerLayout v count i0 j0 best).
Proof.
  intros [Hi0 Hj0] Hbest. unfold considerLayout.
  assert (forall i j, before i j i0 (j0 + 1) ->
            before i j i0 j0 \/ (i = i0 /\ j = j0)) as Hsplit
    by (unfold before; intros; lia).
  destruct (Z.geb_spec (i0 * j0) count) as [Hadm | Hadm].
  - destruct (area_positive i0 j0) as (a0 & Ea0 & Ha0); [lia | lia |].
    fold (area i0 j0).
    destruct Hbest as [[-> Hnone] | (r & c & Hrc & Hbef & Hadm' & -> & Hmax)].
    + (* nothing found so far *)
      rewrite Ea0. replace (Fin a0 >? totalArea initialLayout)%js with true
        by (symmetry; apply (gtb_Fin a0 0); exact Ha0).
      right. exists i0, j0. split; [split; lia|]. split; [unfold before; lia|].
      split; [lia|]. split; [reflexivity|].
      intros i j Hr [Hb | [-> ->]]%Hsplit Hij; [now apply Hnone in Hij|].
      split; [apply area_leb_refl; lia | unfold before; lia].
    + fold (area r c).
      destruct Hrc as [Hr Hc].
      destruct (area_positive r c) as (a & Ea & Ha); [lia | lia |].
      destruct (area i0 j0 >? area r c)%js eqn:E.
      * (* a strictly larger candidate *)
        right. exists i0, j0. split; [split; lia|]. split; [unfold before; lia|].
        split; [lia|]. split; [reflexivity|].
        intros i j Hr' [Hb | [-> ->]]%Hsplit Hij.
        -- destruct (Hmax i j Hr' Hb Hij) as [Hle _].
           assert ((area i0 j0 >? area i j)%js = true) as Hgt
             by (unfold gtb in *; eapply leb_ltb_trans; eassumption).
           split; [now apply gtb_leb | now intros _].
        -- split; [apply area_leb_refl; lia | unfold before; lia].
      * (* the best stays *)
        right. exists r, c. split; [split; lia|].
        split; [unfold before in *; lia|]. split; [lia|]. split; [reflexivity|].
        intros i j Hr' [Hb | [-> ->]]%Hsplit Hij; [now apply Hmax|].
        rewrite Ea0, Ea in *. split; [now apply gtb_false_leb|].
        unfold before in *. lia.
  - destruct Hbest as [[-> Hnone] | (r & c & Hrc & Hbef & Hadm' & -> & Hmax)].
    + left. split; [reflexivity|].
      intros i j Hr [Hb | [-> ->]]%Hsplit; [now apply Hnone | lia].
    + right. exists r, c. split; [exact Hrc|]. split; [unfold before in *; lia|].
      split; [lia|]. split; [reflexivity|].
      intros i j Hr [Hb | [-> ->]]%Hsplit Hij; [now apply Hmax | lia].
Qed.

Lemma FirstMax_next_row (i0 : Z) (best : WaffleChartLayout) :
  FirstMax i0 (count + 1) best -> FirstMax (i0 + 1) 1 best.
Proof.
  assert (forall i j, inRange i j -> before i j (i0 + 1) 1 -> before i j i0 (count + 1))
    as Hbefore by (unfold inRange, before; intros; lia).
  intros [[-> Hnone] | (r & c & Hrc & Hbef & Hadm & -> & Hmax)].
  - left. split; [reflexivity|]. intros i j Hr Hb. apply Hnone; auto.
  - right. exists r, c. split; [exact Hrc|].
    split; [unfold inRange, before in *; lia|]. split; [exact Hadm|].
    split; [reflexivity|]. intros i j Hr Hb. apply Hmax; auto.
Qed.

(** The layout found is the first, in the order of the search, of the
    admissible candidates of largest area. *)
Lemma getBestLayout_first_max :
  exists r c,
    inRange r c /\ r * c >= count /\
    getBestLayout v count = calculateArea v count r c /\
    forall i j, inRange i j -> i * j >= count ->
      (area i j <=? area r c)%js = true /\
      (before i j r c -> (area r c >? area i j)%js = true).
Proof.
  assert (FirstMax (count + 1) 1 (getBestLayout v count)) as Hfinal.
  { unfold getBestLayout.
    apply (for_upto_invariant_at (fun i s => FirstMax i 1 s)); [lia | |].
    - left. split; [reflexivity|]. unfold inRange, before. intros; lia.
    - intros i0 s Hi0 Hs. apply FirstMax_next_row.
      apply (for_upto_invariant_at (fun j s => FirstMax i0 j s)); [lia | exact Hs|].
      intros j0 s' Hj0. apply FirstMax_step. split; lia. }
  destruct Hfinal as [[_ Hnone] | (r & c & Hrc & Hbef & Hadm & E & Hmax)].
  - exfalso. apply (Hnone 1 count); unfold inRange, before; lia.
  - exists r, c. split; [exact Hrc|]. split; [exact Hadm|]. split; [exact E|].
    intros i j Hr Hij. apply Hmax; [exact Hr | | exact Hij].
    unfold inRange, before in *. lia.
Qed.

End FirstMaximum.


(** X2. Ties go to the candidate found first: every admissible candidate
    that the search tries before the returned one (a smaller [rows], or the
    same [rows] and a smaller [columns]) has a strictly smaller area. *)
Theorem getBestLayout_first_found (w h : Q) (count i j : Z) :
  (0 < w)%Q -> (0 < h)%Q ->
  1 <= i <= count -> 1 <= j <= count -> i * j >= count ->
  let viewport := {| width := Fin w; height := Fin h |} in
  let bestLayout := getBestLayout viewport count in
  i < rows bestLayout \/ (i = rows bestLayout /\ j < columns bestLayout) ->
  (totalArea bestLayout >? totalArea (calculateArea viewport count i j))%js = true.
Proof.
  intros Hw Hh Hi Hj Hij. cbn zeta.
  destruct (getBestLayout_first_max w h count Hw Hh ltac:(lia))
    as (r & c & _ & _ & -> & Hmax).
  cbn [rows columns calculateArea]. now apply Hmax.
Qed.

(** X3. Whatever the numbers of the viewport ([NaN] and infinities
    included), the search returns either the initial layout or a candidate
    it tried, with [1 <= rows, columns <= count], [rows * columns >= count]
    and an area above 0; for [count <= 0] no candidate is tried and the
    initial layout is returned. *)
Theorem getBestLayout_any_viewport (viewport : IViewport) (count : Z) :
  let bestLayout := getBestLayout viewport count in
  (bestLayout = initialLayout \/
   (1 <= rows bestLayout <= count /\ 1 <= columns bestLayout <= count /\
    rows bestLayout * columns bestLayout >= count /\
    bestLayout = calculateArea viewport count (rows bestLayout) (columns bestLayout) /\
    (totalArea bestLayout >? 0)%js = true)) /\
  (count <= 0 -> bestLayout = initialLayout).
Proof.
  cbn zeta. pose proof (getBestLayout_tried viewport count) as Htried.
  split; [exact Htried|]. intros Hcount.
  destruct Htried as [E | (Hr & _)]; [exact E | lia].
Qed.

Local Open Scope Z_scope.

(* ===================================================================== *)
(** ** Placing the waffles                                                *)
(* ===================================================================== *)

(** A loop that pushes one element at each turn. *)
Lemma for_below_push {A : Type} (f : nat -> A) (n : nat) :
  for_below n (fun i (acc : list A) => acc ++ [f i]) [] = f <$> seq 0 n.
Proof.
  induction n as [|n IH]; [reflexivity|].
  rewrite for_below_S, IH, seq_S, fmap_app. reflexivity.
Qed.

Lemma Qfloor_div_Z (i c : Z) : 0 < c -> Qfloor (inject_Z i / inject_Z c) = i / c.
Proof.
  intros Hc. destruct c as [|p|p]; try lia.
  unfold Qfloor, Qdiv, Qmult, Qinv, inject_Z. cbn [Qnum Qden].
  now rewrite Z.mul_1_r, Pos.mul_1_l.
Qed.

Lemma Qtrunc_div_Z (i c : Z) : 0 <= i -> 0 < c -> Qtrunc (inject_Z i / inject_Z c) = i / c.
Proof.
  intros Hi Hc. unfold Qtrunc.
  replace (Qle_bool 0 (inject_Z i / inject_Z c)) with true; [now apply Qfloor_div_Z|].
  symmetry. apply Qle_bool_iff. apply Qle_shift_div_l.
  - now apply inject_Z_pos.
  - rewrite Qmult_0_l. change 0%Q with (inject_Z 0). now rewrite <- Zle_Qle.
Qed.

(** [i % c] and [Math.floor(i / c)] on a non-negative integer [i] and a
    positive integer [c]. *)
Lemma rem_of_Z (i c : Z) :
  0 <= i -> 0 < c ->
  exists m : Q, (of_Z i mod of_Z c)%js = Fin m /\ (m == inject_Z (i mod c))%Q.
Proof.
  intros Hi Hc. unfold rem, of_Z.
  replace (Qeq_bool (inject_Z c) 0) with false.
  2:{ symmetry. apply not_true_iff_false. rewrite Qeq_bool_iff.
      unfold Qeq, inject_Z. cbn. lia. }
  eexists. split; [reflexivity|]. rewrite Qtrunc_div_Z by assumption.
  rewrite (Z.mod_eq i c) by lia. unfold Zminus.
  rewrite inject_Z_plus, inject_Z_opp, inject_Z_mult. ring.
Qed.

Lemma floor_div_of_Z (i c : Z) :
  0 < c -> Math_floor (of_Z i / of_Z c)%js = of_Z (i / c).
Proof.
  intros Hc. unfold of_Z. rewrite div_Fin.
  - cbn [Math_floor]. unfold of_Z. now rewrite Qfloor_div_Z.
  - unfold Qeq, inject_Z. cbn. lia.
Qed.

Lemma inject_Z_nonneg (z : Z) : 0 <= z -> (0 <= inject_Z z)%Q.
Proof. intros Hz. change 0%Q with (inject_Z 0). now rewrite <- Zle_Qle. Qed.

Lemma inject_Z_succ_le (a b : Z) : a < b -> (inject_Z a + 1 <= inject_Z b)%Q.
Proof.
  intros Hab. change 1%Q with (inject_Z 1). rewrite <- inject_Z_plus, <- Zle_Qle. lia.
Qed.

Section Placement.
Context {Identity Objects : Type}.
Implicit Types (viewModel : @WaffleChartViewModel Identity Objects).

(** On a viewport of positive size every waffle gets the same finite
    size, and the place of its cell in a grid centred in the viewport. *)
Lemma updateOptions_grid (w h : Q) viewModel (n : nat) :
  (0 < w)%Q -> (0 < h)%Q -> count viewModel = Some n -> (0 < n)%nat ->
  exists (r c : Z) (tw th : Q),
    1 <= r /\ 1 <= c /\ r * c >= Z.of_nat n /\
    (0 < tw)%Q /\ (0 < th)%Q /\
    (tw * inject_Z c <= w)%Q /\ (th * inject_Z r <= h)%Q /\
    length (updateOptions {| width := Fin w; height := Fin h |} viewModel) = n /\
    forall (i : nat) o,
      updateOptions {| width := Fin w; height := Fin h |} viewModel !! i = Some o ->
      (i < n)%nat /\ opt_width o = Fin tw /\ opt_height o = Fin th /\
      exists x y : Q,
        opt_x o = Fin x /\ opt_y o = Fin y /\
        (x == w / 2 - tw * inject_Z c / 2 + tw * inject_Z (Z.of_nat i mod c))%Q /\
        (y == h / 2 - th * inject_Z r / 2 + th * inject_Z (Z.of_nat i / c))%Q.
Proof.
  intros Hw Hh Hcount Hn. unfold updateOptions. rewrite Hcount. cbn [default from_option id].
  destruct (getBestLayout_first_max w h (Z.of_nat n) Hw Hh ltac:(lia))
    as (r & c & [Hr Hc] & Hadm & -> & _).
  cbn [rows columns calculateArea width height].
  rewrite !div_Fin_Z by lia.
  pose proof (inject_Z_pos c ltac:(lia)) as HC.
  pose proof (inject_Z_pos r ltac:(lia)) as HR.
  pose proof (Qdiv_pos w (inject_Z c) Hw HC) as Hcw.
  pose proof (Qdiv_pos h (inject_Z r) Hh HR) as Hch.
  assert (w / inject_Z c * inject_Z c == w)%Q as Ecw by (field; lra).
  assert (h / inject_Z r * inject_Z r == h)%Q as Ech by (field; lra).
  assert (exists tw th : Q,
            getWaffleSize {| width := Fin (w / inject_Z c);
                             height := Fin (h / inject_Z r) |}
            = {| width := Fin tw; height := Fin th |} /\
            (0 < tw)%Q /\ (0 < th)%Q /\
            (tw <= w / inject_Z c)%Q /\ (th <= h / inject_Z r)%Q)
    as (tw & th & -> & Htw & Hth & Htw' & Hth').
  { destruct (getWaffleSize_Fin (w / inject_Z c) (h / inject_Z r)) as [[Hcase ->] | [Hcase ->]];
      eexists _, _; (split; [reflexivity|]); repeat split; qlra. }
  exists r, c, tw, th. cbn [width height].
  split; [lia|]. split; [lia|]. split; [exact Hadm|]. split; [exact Htw|].
  split; [exact Hth|].
  split; [rewrite <- Ecw; apply Qmult_le_compat_r; lra|].
  split; [rewrite <- Ech; apply Qmult_le_compat_r; lra|].
  cbv zeta. rewrite for_below_push. split; [now rewrite length_fmap, length_seq|].
  intros i o Hlookup. rewrite list_lookup_fmap in Hlookup.
  destruct (seq 0 n !! i) as [k|] eqn:Ek; [|discriminate].
  apply lookup_seq in Ek as [-> Hi].
  cbn [fmap option_fmap option_map Nat.add] in Hlookup.
  apply (inj Some) in Hlookup. subst o.
  cbv beta iota delta [opt_x opt_y opt_width opt_height].
  split; [exact Hi|]. split; [reflexivity|]. split; [reflexivity|].
  destruct (rem_of_Z (Z.of_nat i) c ltac:(lia) ltac:(lia)) as (m & -> & Hm).
  rewrite floor_div_of_Z by lia.
  rewrite !mul_Fin_Z, !div_Fin_Z by lia.
  eexists _, _. split; [reflexivity|]. split; [reflexivity|].
  rewrite Hm. change (inject_Z 2) with 2%Q. split; reflexivity.
Qed.
End Placement.

Section PlacementTheorems.
Context {Identity Objects : Type}.
Implicit Types (viewModel : @WaffleChartViewModel Identity Objects).

Lemma updateOptions_lookup_count (viewport : IViewport) viewModel (n i : nat) o :
  count viewModel = Some n -> updateOptions viewport viewModel !! i = Some o ->
  (0 < n)%nat.
Proof.
  intros Hcount Hlookup. destruct n as [|n]; [|lia].
  unfold updateOptions in Hlookup. rewrite Hcount in Hlookup. discriminate.
Qed.


End PlacementTheorems.

Local Open Scope Z_scope.

(* ===================================================================== *)
(** ** How many dots are filled                                           *)
(* ===================================================================== *)

(** Two counters that are above 0 at the same visits fill the same dots. *)
Lemma fillDots_ext (p p' : number) :
  (forall k : nat, (k < 100)%nat ->
     (Nat.iter k decrement p >? 0)%js = (Nat.iter k decrement p' >? 0)%js) ->
  fillDots p = fillDots p'.
Proof.
  intros Hsame. rewrite !fillDots_unroll.
  apply list_fmap_ext. intros i ? [-> Hi]%lookup_seq.
  apply list_fmap_ext. intros j ? [-> Hj]%lookup_seq.
  f_equal. apply Hsame. unfold visitRank. lia.
Qed.

Lemma decrement_above_0 (k : nat) (q : Q) :
  (Nat.iter k decrement (Fin q) >? 0)%js = true <-> (inject_Z (Z.of_nat k) < q)%Q.
Proof.
  destruct (iter_decrement k q) as (q' & -> & Hq').
  rewrite (gtb_Fin q' 0), Hq'. split; intros; lra.
Qed.

(** Only the integer above the percentage matters. *)
Lemma fillDots_ceiling (q : Q) : fillDots (Fin q) = fillDots (of_Z (Qceiling q)).
Proof.
  apply fillDots_ext. intros k _. apply eq_true_iff_eq. unfold of_Z.
  rewrite !decrement_above_0.
  pose proof (Qle_ceiling q) as Hle. pose proof (Qceiling_lt q) as Hlt.
  rewrite <- Zlt_Qlt. split; intros H.
  - rewrite Zlt_Qlt. lra.
  - assert (Z.of_nat k <= Qceiling q - 1) as H' by lia.
    rewrite Zle_Qle in H'. lra.
Qed.

Lemma fillDots_clamp (z : Z) :
  fillDots (of_Z z) = fillDots (of_Z (Z.min 100 (Z.max 0 z))).
Proof.
  apply fillDots_ext. intros k Hk. apply eq_true_iff_eq. unfold of_Z.
  rewrite !decrement_above_0, <- !Zlt_Qlt. lia.
Qed.

Lemma countFilled_upto_100 (n : nat) :
  (n <= 100)%nat -> countFilled (fillDots (of_Z (Z.of_nat n))) = n.
Proof.
  intros Hn.
  assert (forallb (fun n => countFilled (fillDots (of_Z (Z.of_nat n))) =? n)%nat
                  (seq 0 101) = true) as Hall by (vm_compute; reflexivity).
  rewrite forallb_forall in Hall. apply Nat.eqb_eq, Hall, in_seq. lia.
Qed.

(** X6. The number of filled dots is the percentage rounded up and
    clamped to [0, 100]; [NaN] and [-Infinity] fill none, [Infinity] fills
    all 100. *)
Theorem fillDots_count (percentage : number) :
  countFilled (fillDots percentage)
  = match percentage with
    | Fin q => Z.to_nat (Z.min 100 (Z.max 0 (Qceiling q)))
    | PosInf => 100%nat
    | NegInf | NaN => 0%nat
    end.
Proof.
  destruct percentage as [q| | |]; try reflexivity.
  rewrite fillDots_ceiling, fillDots_clamp.
  set (m := Z.min 100 (Z.max 0 (Qceiling q))).
  rewrite <- (Z2Nat.id m) at 1 by lia. apply countFilled_upto_100. lia.
Qed.

Local Open Scope nat_scope.

(* ===================================================================== *)
(** ** Summing the series                                                 *)
(* ===================================================================== *)

(** [sumValues], category by category. *)
Lemma sumValues_get (totals localValues : array number) (paths : array string)
    (currentPath : value string) :
  let result := sumValues totals localValues paths currentPath in
  (forall i, get result.1 i = addValue i (get totals i) localValues) /\
  (forall i, get result.2 i
             = if truthy (get localValues i) then currentPath else get paths i) /\
  (length localValues <= length totals -> length result.1 = length totals) /\
  (length localValues <= length paths -> length result.2 = length paths).
Proof.
  cbn zeta. unfold sumValues.
  pose (P := fun (k : nat) (s : array number * array string) =>
    (forall i, get s.1 i
               = if i <? k then addValue i (get totals i) localValues
                 else get totals i) /\
    (forall i, get s.2 i
               = if i <? k
                 then (if truthy (get localValues i) then currentPath else get paths i)
                 else get paths i) /\
    (length localValues <= length totals -> length s.1 = length totals) /\
    (length localValues <= length paths -> length s.2 = length paths)).
  match goal with
  | |- context [for_below ?n ?body ?s] =>
      assert (P n (for_below n body s)) as (Ht & Hp & Hlt & Hlp)
  end.
  { apply (for_below_invariant P).
    - repeat split; auto.
    - intros k [t p] Hk (Ht & Hp & Hlt & Hlp). cbn [fst snd] in *.
      assert (forall i, (i <? S k) = (i <? k) || (i =? k)) as Hlast.
      { intros i. destruct (Nat.ltb_spec i (S k)), (Nat.ltb_spec i k),
          (Nat.eqb_spec i k); cbn; try reflexivity; lia. }
      unfold P.
      destruct (truthy (get localValues k)) eqn:Etruthy; cbv zeta; cbn [fst snd].
      + split; [|split; [|split]].
        * intros i. rewrite Hlast. destruct (Nat.eqb_spec i k) as [-> | Hne].
          -- rewrite get_set_eq, Ht, Nat.ltb_irrefl, orb_true_r.
             unfold addValue. now rewrite Etruthy.
          -- rewrite get_set_ne by auto. now rewrite Ht, orb_false_r.
        * intros i. rewrite Hlast. destruct (Nat.eqb_spec i k) as [-> | Hne].
          -- now rewrite get_set_eq, orb_true_r, Etruthy.
          -- rewrite get_set_ne by auto. now rewrite Hp, orb_false_r.
        * intros Hle. rewrite length_set, Hlt by exact Hle. lia.
        * intros Hle. rewrite length_set, Hlp by exact Hle. lia.
      + split; [|split; [|split]]; try assumption.
        * intros i. rewrite Hlast, Ht. destruct (Nat.eqb_spec i k) as [-> | Hne].
          -- rewrite Nat.ltb_irrefl, orb_true_r. unfold addValue. now rewrite Etruthy.
          -- now rewrite orb_false_r.
        * intros i. rewrite Hlast, Hp. destruct (Nat.eqb_spec i k) as [-> | Hne].
          -- now rewrite Nat.ltb_irrefl, orb_true_r, Etruthy.
          -- now rewrite orb_false_r. }
  assert (forall i, length localValues <= i -> truthy (get localValues i) = false)
    as Hout by (intros i Hi; now rewrite get_ge).
  split; [|split; [|split]]; try assumption.
  - intros i. rewrite Ht. destruct (Nat.ltb_spec i (length localValues)); [reflexivity|].
    unfold addValue. now rewrite Hout.
  - intros i. rewrite Hp. destruct (Nat.ltb_spec i (length localValues)); [reflexivity|].
    now rewrite Hout.
Qed.

Lemma readAsRole_Values (column : DataViewValueColumn) :
  readAsRole Values column = hasRole (source column) Values.
Proof.
  unfold readAsRole, readAs. destruct (hasRole (source column) Values); [reflexivity|].
  destruct (hasRole (source column) MinValue); [reflexivity|].
  now destruct (hasRole (source column) MaxValue).
Qed.

Lemma pathOf_none (pathsGroups : array string) (k : nat) (cols : list (array number))
    (i : nat) (path : value string) :
  Forall (fun l => truthy (get l i) = false) cols ->
  pathOf pathsGroups k cols i path = path.
Proof.
  intros Hall. revert k. induction Hall as [|l cols Hl _ IH]; intros k; [reflexivity|].
  cbn [pathOf]. now rewrite Hl, IH.
Qed.

Lemma pathOf_last (pathsGroups : array string) (k : nat)
    (before after : list (array number)) (l : array number) (i : nat)
    (path : value string) :
  truthy (get l i) = true ->
  Forall (fun l => truthy (get l i) = false) after ->
  pathOf pathsGroups k (before ++ l :: after) i path
  = get pathsGroups (k + length before).
Proof.
  intros Hl Hafter. revert k path.
  induction before as [|b before IH]; intros k path.
  - cbn [app pathOf length]. rewrite Hl, pathOf_none by exact Hafter.
    now rewrite Nat.add_0_r.
  - cbn [app pathOf length]. rewrite IH. f_equal. lia.
Qed.

Section ReadingColumns.
Variable pathsGroups : array string.

Let step (s : Series) (column : DataViewValueColumn) : Series :=
  readColumn pathsGroups column s.

Lemma readColumn_not_values (column : DataViewValueColumn) (s : Series) :
  readAsRole Values column = false ->
  totals (readColumn pathsGroups column s) = totals s /\
  s_paths (readColumn pathsGroups column s) = s_paths s /\
  currentPathIndex (readColumn pathsGroups column s) = currentPathIndex s.
Proof.
  rewrite readAsRole_Values. intros Hrole. unfold readColumn. rewrite Hrole.
  destruct (hasRole (source column) MinValue); [now repeat split|].
  destruct (hasRole (source column) MaxValue); now repeat split.
Qed.

Lemma readColumn_values (column : DataViewValueColumn) (s : Series)
    (t : array number) (p : array string) :
  readAsRole Values column = true ->
  totals s = Some t -> s_paths s = Some p ->
  let result :=
    sumValues t (col_values column) p (get pathsGroups (currentPathIndex s)) in
  totals (readColumn pathsGroups column s) = Some result.1 /\
  s_paths (readColumn pathsGroups column s) = Some result.2 /\
  currentPathIndex (readColumn pathsGroups column s) = S (currentPathIndex s).
Proof.
  rewrite readAsRole_Values. intros Hrole Ht Hp. cbn zeta. unfold readColumn.
  rewrite Hrole, Ht, Hp. cbn [default from_option id].
  destruct (sumValues t (col_values column) p (get pathsGroups (currentPathIndex s))).
  now repeat split.
Qed.

(** Once the totals exist, every further column of values is added to
    them and leaves its path. *)
Lemma fold_readColumn_some (cols : list DataViewValueColumn) (s : Series)
    (t : array number) (p : array string) :
  totals s = Some t -> s_paths s = Some p -> length p = length t ->
  Forall (fun column => length (col_values column) <= length t)
         (List.filter (readAsRole Values) cols) ->
  exists t' p',
    totals (fold_left step cols s) = Some t' /\
    s_paths (fold_left step cols s) = Some p' /\
    length t' = length t /\ length p' = length t /\
    forall i,
      get t' i = fold_left (addValue i)
                   (map col_values (List.filter (readAsRole Values) cols)) (get t i) /\
      get p' i = pathOf pathsGroups (currentPathIndex s)
                   (map col_values (List.filter (readAsRole Values) cols)) i (get p i).
Proof.
  revert s t p. induction cols as [|column cols IH]; intros s t p Ht Hp Hlen Hall.
  - exists t, p. now repeat split.
  - cbn [fold_left List.filter] in *. unfold step at 2.
    destruct (readAsRole Values column) eqn:Hrole.
    + apply Forall_cons in Hall as [Hcol Hall].
      destruct (readColumn_values column s t p Hrole Ht Hp) as (Et & Ep & Eidx).
      destruct (sumValues_get t (col_values column) p
                  (get pathsGroups (currentPathIndex s)))
        as (Hgt & Hgp & Hlt & Hlp).
      specialize (Hlt Hcol). specialize (Hlp ltac:(lia)).
      destruct (IH _ _ _ Et Ep ltac:(lia) ltac:(now rewrite Hlt))
        as (t' & p' & Et' & Ep' & Hlt' & Hlp' & Hget).
      exists t', p'. split; [exact Et'|]. split; [exact Ep'|].
      split; [lia|]. split; [lia|].
      intros i. destruct (Hget i) as [Hti Hpi]. cbn [map fold_left pathOf].
      now rewrite Hti, Hpi, Hgt, Hgp, Eidx.
    + destruct (readColumn_not_values column s Hrole) as (Et & Ep & Eidx).
      destruct (IH (readColumn pathsGroups column s) t p) as (t' & p' & H);
        try congruence.
      exists t', p'. now rewrite <- Eidx.
Qed.

(** From the start: the first column of values creates the totals. *)
Lemma fold_readColumn_none (cols : list DataViewValueColumn) (s : Series)
    (first : DataViewValueColumn) (rest : list DataViewValueColumn) :
  totals s = None -> s_paths s = None -> currentPathIndex s = 0 ->
  List.filter (readAsRole Values) cols = first :: rest ->
  Forall (fun column => length (col_values column) <= length (col_values first)) rest ->
  exists t p,
    totals (fold_left step cols s) = Some t /\
    s_paths (fold_left step cols s) = Some p /\
    length t = length (col_values first) /\ length p = length (col_values first) /\
    forall i,
      (i < length (col_values first) ->
       get t i = totalOf (map col_values (first :: rest)) i) /\
      get p i = pathOf pathsGroups 0 (map col_values (first :: rest)) i Undefined.
Proof.
  revert s. induction cols as [|column cols IH]; intros s Ht Hp Hidx Hfilter Hall;
    [discriminate|].
  cbn [fold_left List.filter] in *. unfold step at 2.
  destruct (readAsRole Values column) eqn:Hrole.
  - injection Hfilter as -> Hfilter.
    set (n := length (col_values first)) in *.
    assert (totals (readColumn pathsGroups first s)
            = Some (sumValues (replicate n (Val (of_Z 0))) (col_values first)
                      (replicate n Undefined) (get pathsGroups 0)).1 /\
            s_paths (readColumn pathsGroups first s)
            = Some (sumValues (replicate n (Val (of_Z 0))) (col_values first)
                      (replicate n Undefined) (get pathsGroups 0)).2 /\
            currentPathIndex (readColumn pathsGroups first s) = 1) as (Et & Ep & Eidx).
    { rewrite readAsRole_Values in Hrole. unfold readColumn.
      rewrite Hrole, Ht, Hidx. fold n.
      destruct (sumValues (replicate n (Val (of_Z 0))) (col_values first)
                  (replicate n Undefined) (get pathsGroups 0)).
      now repeat split. }
    destruct (sumValues_get (replicate n (Val (of_Z 0))) (col_values first)
                (replicate n Undefined) (get pathsGroups 0))
      as (Hgt & Hgp & Hlt & Hlp).
    rewrite !length_replicate in Hlt. rewrite !length_replicate in Hlp.
    specialize (Hlt (Nat.le_refl _)). specialize (Hlp (Nat.le_refl _)).
    destruct (fold_readColumn_some cols _ _ _ Et Ep ltac:(lia))
      as (t' & p' & Et' & Ep' & Hlt' & Hlp' & Hget).
    { rewrite Hfilter, Hlt. exact Hall. }
    exists t', p'. split; [exact Et'|]. split; [exact Ep'|].
    split; [lia|]. split; [lia|].
    intros i. destruct (Hget i) as [Hti Hpi]. rewrite Hfilter in Hti, Hpi.
    rewrite Hti, Hpi, Hgt, Hgp, Eidx. split.
    + intros Hi. unfold totalOf. cbn [map fold_left]. do 2 f_equal.
      unfold get. now rewrite lookup_replicate_2.
    + cbn [map pathOf]. do 2 f_equal.
      unfold get. destruct (replicate n Undefined !! i) as [x|] eqn:E; [|reflexivity].
      now apply lookup_replicate in E as [-> _].
  - destruct (readColumn_not_values column s Hrole) as (Et & Ep & Eidx).
    apply IH; try assumption; unfold step; congruence.
Qed.
End ReadingColumns.

(** X7. [sumValues], category by category: a truthy value is added to the
    total of its category and tags the category with the current path; a
    falsy one (0, [NaN], [null], missing) leaves both as they were.  When
    the column is not longer than the arrays, their lengths are kept. *)
Theorem sumValues_pointwise (totals localValues : array number) (paths : array string)
    (currentPath : value string) (i : nat) :
  let result := sumValues totals localValues paths currentPath in
  get result.1 i
  = (if truthy (get localValues i)
     then Val (ToNumber (get totals i) + ToNumber (get localValues i))%js
     else get totals i) /\
  get result.2 i = (if truthy (get localValues i) then currentPath else get paths i) /\
  (length localValues <= length totals -> length result.1 = length totals) /\
  (length localValues <= length paths -> length result.2 = length paths).
Proof.
  cbn zeta.
  destruct (sumValues_get totals localValues paths currentPath) as (Ht & Hp & Hlt & Hlp).
  split; [apply Ht|]. split; [apply Hp|]. split; assumption.
Qed.

Section SeriesTheorems.
Context {Identity Objects : Type}.
Implicit Types (dataView : @DataView Identity Objects).

Lemma readSeries_fold dataView (categoricalValues : DataViewValueColumns) :
  values dataView = Some categoricalValues -> metadata_columns dataView = true ->
  readSeries dataView
  = fold_left (fun s column =>
                 readColumn (map (fun g => sanitizePathD (name g))
                                 (grouped categoricalValues)) column s)
              (valueColumns categoricalValues) noSeries.
Proof. intros Hv Hm. unfold readSeries. now rewrite Hv, Hm. Qed.

(** X8. When no later column of values is longer than the first one, the
    totals have the length of the first one and the total of a category is
    the sum, in the order of the columns and from 0, of the truthy values
    the columns of role "Values" have for it. *)
Theorem readSeries_totals_sum dataView (categoricalValues : DataViewValueColumns)
    (first : DataViewValueColumn) (rest : list DataViewValueColumn) :
  values dataView = Some categoricalValues -> metadata_columns dataView = true ->
  List.filter (readAsRole Values) (valueColumns categoricalValues) = first :: rest ->
  Forall (fun column => length (col_values column) <= length (col_values first)) rest ->
  exists sums,
    totals (readSeries dataView) = Some sums /\
    length sums = length (col_values first) /\
    forall i, i < length sums ->
      get sums i = totalOf (map col_values (first :: rest)) i.
Proof.
  intros Hv Hm Hfilter Hall. rewrite (readSeries_fold _ _ Hv Hm).
  destruct (fold_readColumn_none
              (map (fun g => sanitizePathD (name g)) (grouped categoricalValues))
              (valueColumns categoricalValues) noSeries first rest
              eq_refl eq_refl eq_refl Hfilter Hall)
    as (t & p & Et & _ & Hlt & _ & Hget).
  exists t. split; [exact Et|]. split; [exact Hlt|].
  intros i Hi. apply Hget. lia.
Qed.

(** X9. Under the same condition, the path of a category is that of the
    group of the last column of values with a truthy value for it, the
    [k]-th column of values going with the [k]-th group, and is undefined
    when no column has one. *)
Theorem readSeries_path_last_wins dataView (categoricalValues : DataViewValueColumns)
    (first : DataViewValueColumn) (rest : list DataViewValueColumn) :
  values dataView = Some categoricalValues -> metadata_columns dataView = true ->
  List.filter (readAsRole Values) (valueColumns categoricalValues) = first :: rest ->
  Forall (fun column => length (col_values column) <= length (col_values first)) rest ->
  let pathsGroups :=
    map (fun g => sanitizePathD (name g)) (grouped categoricalValues) in
  exists p,
    s_paths (readSeries dataView) = Some p /\
    length p = length (col_values first) /\
    forall i,
      (forall before column after,
         first :: rest = before ++ column :: after ->
         truthy (get (col_values column) i) = true ->
         Forall (fun column => truthy (get (col_values column) i) = false) after ->
         get p i = get pathsGroups (length before)) /\
      (Forall (fun column => truthy (get (col_values column) i) = false)
              (first :: rest) ->
       get p i = Undefined).
Proof.
  intros Hv Hm Hfilter Hall. cbn zeta. rewrite (readSeries_fold _ _ Hv Hm).
  destruct (fold_readColumn_none
              (map (fun g => sanitizePathD (name g)) (grouped categoricalValues))
              (valueColumns categoricalValues) noSeries first rest
              eq_refl eq_refl eq_refl Hfilter Hall)
    as (t & p & _ & Ep & _ & Hlp & Hget).
  exists p. split; [exact Ep|]. split; [exact Hlp|].
  intros i. destruct (Hget i) as [_ ->]. split.
  - intros before column after E Htruthy Hafter. rewrite E, map_app. cbn [map].
    rewrite pathOf_last.
    + now rewrite length_map.
    + exact Htruthy.
    + now apply Forall_fmap.
  - intros Hnone. apply pathOf_none. now apply Forall_fmap.
Qed.
End SeriesTheorems.

Lemma readColumn_bounds (pathsGroups : array string) (column : DataViewValueColumn)
    (s : Series) :
  maxValues (readColumn pathsGroups column s)
  = (if readAsRole MaxValue column then Some (col_values column) else maxValues s) /\
  minValues (readColumn pathsGroups column s)
  = (if readAsRole MinValue column then Some (col_values column) else minValues s).
Proof.
  unfold readAsRole, readAs, readColumn.
  destruct (hasRole (source column) Values).
  - repeat match goal with |- context [let '(_, _) := ?x in _] => destruct x end.
    now split.
  - destruct (hasRole (source column) MinValue); [now split|].
    destruct (hasRole (source column) MaxValue); now split.
Qed.

(** The bounds after a run of columns: those of the last column read for
    the role, or the ones before. *)
Lemma fold_readColumn_bounds (pathsGroups : array string)
    (cols : list DataViewValueColumn) (s : Series) :
  let s' := fold_left (fun s column => readColumn pathsGroups column s) cols s in
  maxValues s' = match last (List.filter (readAsRole MaxValue) cols) with
                 | Some column => Some (col_values column)
                 | None => maxValues s
                 end /\
  minValues s' = match last (List.filter (readAsRole MinValue) cols) with
                 | Some column => Some (col_values column)
                 | None => minValues s
                 end.
Proof.
  cbn zeta. revert s. induction cols as [|column cols IH]; intros s; [now split|].
  cbn [fold_left List.filter]. destruct (IH (readColumn pathsGroups column s)) as [-> ->].
  destruct (readColumn_bounds pathsGroups column s) as [-> ->].
  split.
  - destruct (readAsRole MaxValue column); [|reflexivity].
    rewrite last_cons.
    destruct (last (List.filter (readAsRole MaxValue) cols)); reflexivity.
  - destruct (readAsRole MinValue column); [|reflexivity].
    rewrite last_cons.
    destruct (last (List.filter (readAsRole MinValue) cols)); reflexivity.
Qed.

(** X10. The max (min) bounds are the values of the last column read for
    the role "MaxValue" ("MinValue"), a column being read for the first of
    "Values", "MinValue", "MaxValue" it has; there are none without such a
    column, without value columns or without metadata columns. *)
Theorem readSeries_bounds_last_wins {Identity Objects : Type}
    (dataView : @DataView Identity Objects) :
  match values dataView, metadata_columns dataView with
  | Some categoricalValues, true =>
      maxValues (readSeries dataView)
      = col_values <$> last (List.filter (readAsRole MaxValue)
                                         (valueColumns categoricalValues)) /\
      minValues (readSeries dataView)
      = col_values <$> last (List.filter (readAsRole MinValue)
                                         (valueColumns categoricalValues))
  | _, _ => maxValues (readSeries dataView) = None /\
            minValues (readSeries dataView) = None
  end.
Proof.
  unfold readSeries.
  destruct (values dataView) as [cv|]; [|now split].
  destruct (metadata_columns dataView); [|now split].
  destruct (fold_readColumn_bounds
              (map (fun g => sanitizePathD (name g)) (grouped cv))
              (valueColumns cv) noSeries) as [-> ->].
  split.
  - destruct (last (List.filter (readAsRole MaxValue) (valueColumns cv))); reflexivity.
  - destruct (last (List.filter (readAsRole MinValue) (valueColumns cv))); reflexivity.
Qed.

Local Open Scope Z_scope.

(* ===================================================================== *)
(** ** Percentages in range                                               *)
(* ===================================================================== *)

Lemma Math_round_Z (q : Q) (z : Z) : (q == inject_Z z)%Q -> Math_round (Fin q) = of_Z z.
Proof.
  intros Hq. unfold Math_round. f_equal.
  rewrite <- (Qfloor_half z). apply Qfloor_comp. now rewrite Hq.
Qed.

(** A rounded number between two integers. *)
Lemma Math_round_between (q : Q) (lo hi : Z) :
  (inject_Z lo <= q <= inject_Z hi)%Q ->
  exists z : Z, Math_round (Fin q) = of_Z z /\ lo <= z <= hi.
Proof.
  intros [Hlo Hhi]. exists (Qfloor (q + (1 # 2))). split; [reflexivity|].
  split.
  - rewrite <- (Qfloor_half lo). apply Qfloor_resp_le. lra.
  - rewrite <- (Qfloor_half hi). apply Qfloor_resp_le. lra.
Qed.



Local Open Scope Z_scope.

(* ===================================================================== *)
(** ** Path data, waffles and their dots                                  *)
(* ===================================================================== *)

(** X13. [sanitizePathD] keeps every string of SVG path data: one made
    of the command letters M L H V C S Q T A Z in either case, digits, the
    exponent letter, signs, the decimal point, commas and spaces. *)
Theorem sanitizePathD_keeps_path_data (pathD : string) :
  Forall (fun c => In c pathDataGlyphs) (list_ascii_of_string pathD) ->
  sanitizePathD pathD = Val pathD.
Proof.
  intros Hall. unfold sanitizePathD.
  destruct (regex_test pathD) eqn:E; [|reflexivity].
  apply regex_test_iff in E as (c & Hc & Hdis).
  rewrite Forall_forall in Hall. apply list_elem_of_In, Hall in Hc.
  apply inClass_iff in Hdis.
  assert (forallb (fun c => negb (inClass c)) pathDataGlyphs = true) as Hnone
    by (vm_compute; reflexivity).
  rewrite forallb_forall in Hnone. apply Hnone in Hc. now rewrite Hdis in Hc.
Qed.

(** X14. [initWaffles] creates one waffle per counted category, none for
    an undefined count, and gives the [i]-th the [i]-th path, or [null]
    when there are no paths. *)
Theorem initWaffles_paths (newCount : option nat) (paths : option (array string)) :
  length (initWaffles newCount paths) = default 0%nat newCount /\
  forall i, (i < default 0%nat newCount)%nat ->
    initWaffles newCount paths !! i
    = Some (match paths with Some p => get p i | None => Null end).
Proof.
  unfold initWaffles. rewrite for_below_push. split.
  - now rewrite length_fmap, length_seq.
  - intros i Hi. now rewrite list_lookup_fmap, lookup_seq_lt.
Qed.

Local Open Scope Q_scope.

Lemma Math_min_Fin (a b : Q) :
  exists m, Math_min (Fin a) (Fin b) = Fin m /\ m <= a /\ m <= b /\ (m = a \/ m = b).
Proof.
  unfold Math_min. cbn [ltb]. destruct (Qle_bool a b) eqn:E; cbn [negb].
  - apply Qle_bool_iff in E. exists a. repeat split; auto; lra.
  - apply Qle_bool_false in E. exists b. repeat split; auto; lra.
Qed.

Lemma max2_Fin (a b : Q) :
  exists m, max2 (Fin a) (Fin b) = Fin m /\ a <= m /\ b <= m /\ (m = a \/ m = b).
Proof.
  unfold max2. cbn [ltb]. destruct (Qle_bool b a) eqn:E; cbn [negb].
  - apply Qle_bool_iff in E. exists a. repeat split; auto; lra.
  - apply Qle_bool_false in E. exists b. repeat split; auto; lra.
Qed.

Lemma geb_Fin (a b : Q) : (Fin a >=? Fin b)%js = true <-> b <= a.
Proof. unfold geb. cbn. apply Qle_bool_iff. Qed.

(** The side of the square of dots: what is left of the smaller side of
    the waffle after a margin of 20 on both sides, or nothing. *)
Lemma chartSide_Fin (w h : Q) :
  exists s, chartSide (Fin w) (Fin h) = Fin s /\ 0 <= s /\
    ((40 <= w /\ 40 <= h /\ s + 40 <= w /\ s + 40 <= h /\
      (s + 40 == w \/ s + 40 == h))
     \/ ((w < 40 \/ h < 40) /\ s == 0)).
Proof.
  unfold chartSide. destruct (Math_min_Fin h w) as (m & -> & Hh & Hw & Hm).
  change (of_Z dotGMargin * of_Z 2)%js with (Fin 40). cbv zeta.
  destruct (Fin m >=? Fin 40)%js eqn:E.
  - apply geb_Fin in E. exists (m - 40). split; [reflexivity|]. split; [lra|].
    left. repeat split; try lra. destruct Hm as [-> | ->]; [right | left]; ring.
  - exists 0. split; [reflexivity|]. split; [lra|]. right. split; [|reflexivity].
    assert (m < 40) as Hlt.
    { apply Qnot_le_lt. intros Hle. apply geb_Fin in Hle. congruence. }
    destruct Hm as [-> | ->]; [right | left]; exact Hlt.
Qed.

Lemma dataPointSide_Fin (w h : Q) :
  exists side, dataPointSide (Fin w) (Fin h) = Fin side /\ 0 <= side /\
    ((40 <= w /\ 40 <= h /\ 10 * side + 40 <= w /\ 10 * side + 40 <= h /\
      (10 * side + 40 == w \/ 10 * side + 40 == h))
     \/ ((w < 40 \/ h < 40) /\ side == 0)).
Proof.
  unfold dataPointSide. destruct (chartSide_Fin w h) as (s & -> & Hs & Hcases).
  rewrite div_Fin_Z by discriminate. exists (s / inject_Z 10).
  split; [reflexivity|]. change (inject_Z 10) with 10.
  assert (10 * (s / 10) == s) as E by (field; lra).
  split; [apply Qle_shift_div_l; lra|].
  destruct Hcases as [(H1 & H2 & H3 & H4 & H5) | [H1 H2]]; [left | right].
  - rewrite E. repeat split; assumption.
  - split; [exact H1|]. rewrite H2. reflexivity.
Qed.




Section Defaults.
Context {Identity Objects : Type}.

(** X18. No waffle is given [NaN] as value, an empty text or an undefined
    identity: its value is that of the view model when that is truthy, and
    otherwise 0, which fills no dot. *)
Theorem updateOptions_defaults (viewport : IViewport)
    (viewModel : @WaffleChartViewModel Identity Objects) (i : nat)
    (o : @SingleWaffleChartUpdateOptions Identity) :
  updateOptions viewport viewModel !! i = Some o ->
  opt_value o <> NaN /\ opt_text o <> EmptyString /\ opt_identity o <> Undefined /\
  (truthy (get (vm_values viewModel) i) = true ->
   opt_value o = ToNumber (get (vm_values viewModel) i)) /\
  (truthy (get (vm_values viewModel) i) = false ->
   opt_value o = of_Z 0 /\ fillDots (opt_value o) = replicate 10 (replicate 10 (Some false))).
Proof.
  unfold updateOptions. cbv zeta. rewrite for_below_push, list_lookup_fmap.
  destruct (seq 0 _ !! i) as [k|] eqn:Ek; [|discriminate].
  apply lookup_seq in Ek as [-> _].
  cbn [fmap option_fmap option_map Nat.add]. intros Ho. apply (inj Some) in Ho. subst o.
  cbv beta iota delta [opt_value opt_text opt_identity].
  split; [|split; [|split; [|split]]].
  - destruct (get (vm_values viewModel) i) as [[q| | |]| |]; cbn; try discriminate.
    now destruct (negb (Qeq_bool q 0)).
  - destruct (labelsArray viewModel) as [l|]; [|discriminate].
    destruct (get l i) as [[|c s]| |]; discriminate.
  - destruct (identities viewModel) as [ids|]; [|discriminate].
    destruct (ids !! i); discriminate.
  - now intros ->.
  - intros ->. split; reflexivity.
Qed.
End Defaults.

Local Open Scope nat_scope.

(* ===================================================================== *)
(** ** Categories without values                                          *)
(* ===================================================================== *)

Lemma zeros_replicate (n : nat) :
  for_below n (fun _ (totals : array number) => totals ++ [Val (of_Z 0)]) []
  = replicate n (Val (of_Z 0)).
Proof.
  rewrite (for_below_push (fun _ => Val (of_Z 0))).
  induction n as [|n IH]; [reflexivity|].
  rewrite seq_S, fmap_app, IH. now rewrite replicate_S_end.
Qed.

Lemma normalize_zeros (n : nat) (minValues : option (array number)) :
  normalize (replicate n (Val (of_Z 0))) minValues None = replicate n (Val (of_Z 0)).
Proof.
  unfold normalize.
  assert (Math_max (map ToNumber (replicate n (Val (of_Z 0)))) = NegInf \/
          Math_max (map ToNumber (replicate n (Val (of_Z 0)))) = of_Z 0) as [-> | ->];
    [|reflexivity..].
  destruct (Math_max_upper (map ToNumber (replicate n (Val (of_Z 0))))) as [Hin _].
  - apply Forall_forall. intros x (v & -> & Hv)%list_elem_of_fmap.
    apply elem_of_replicate_inv in Hv as ->. reflexivity.
  - destruct Hin as [E | (v & E & Hv)%list_elem_of_fmap]; [now left|].
    apply elem_of_replicate_inv in Hv as ->. now right.
Qed.

(** X19. Categories alone: without totals and max bounds, a view model
    with the count [n] has [n] values 0, no paths, and [n] labels. *)
Theorem converter_without_values {Identity Objects : Type}
    (format : value string -> value string)
    (dataView : @DataView Identity Objects) (n : nat) :
  totals (readSeries dataView) = None -> maxValues (readSeries dataView) = None ->
  count (converter format dataView) = Some n ->
  vm_values (converter format dataView) = replicate n (Val (of_Z 0)) /\
  paths (converter format dataView) = None /\
  exists labels, labelsArray (converter format dataView) = Some labels /\
                 length labels = n.
Proof.
  intros Ht Hmax Hcount.
  pose proof (readSeries_aligned dataView) as Haligned. unfold aligned in Haligned.
  rewrite Ht in Haligned.
  destruct (s_paths (readSeries dataView)) as [p|] eqn:Ep; [contradiction|].
  split; [|split].
  - unfold converter in *. cbn [vm_values count] in *. rewrite Ht, Hmax in *.
    rewrite Hcount. cbn [default from_option id]. rewrite zeros_replicate.
    apply normalize_zeros.
  - unfold converter. cbn [paths]. exact Ep.
  - rewrite converter_count_eq, Ht in Hcount.
    destruct (labelsArray (converter format dataView)) as [l|]; [|discriminate].
    exists l. split; [reflexivity|]. now injection Hcount.
Qed.

Local Open Scope Z_scope.

(* ===================================================================== *)
(** ** More theorems at work                                              *)
(* ===================================================================== *)


Lemma getBestLayout_first_found_witness :
  let viewport := {| width := Fin 300; height := Fin 800 |} in
  let bestLayout := getBestLayout viewport 3 in
  (totalArea bestLayout >? totalArea (calculateArea viewport 3 1 3))%js = true.
Proof.
  apply (getBestLayout_first_found 300 800 3 1 3); try reflexivity; try lia.
  left. vm_compute. reflexivity.
Defined.

Lemma getBestLayout_any_viewport_witness :
  getBestLayout {| width := NaN; height := PosInf |} 0 = initialLayout.
Proof.
  apply (proj2 (getBestLayout_any_viewport {| width := NaN; height := PosInf |} 0)).
  lia.
Defined.



Lemma sumValues_pointwise_witness :
  let result :=
    sumValues [Val (1 : number); Val (2 : number)] [Val (5 : number); Null]
              [Undefined; Undefined] (Val "M0 0"%string) in
  length result.1 = 2%nat /\ length result.2 = 2%nat.
Proof.
  destruct (sumValues_pointwise [Val (1 : number); Val (2 : number)]
              [Val (5 : number); Null] [Undefined; Undefined] (Val "M0 0"%string) 0)
    as (_ & _ & Hlt & Hlp).
  split; [apply Hlt | apply Hlp]; cbn; lia.
Defined.

Lemma readSeries_totals_sum_witness :
  exists sums,
    totals (readSeries (abcSeries [10; 50; 90])) = Some sums /\
    length sums = 3%nat /\
    forall i, (i < length sums)%nat ->
      get sums i
      = totalOf [[Val (10 : number); Val (50 : number); Val (90 : number)]] i.
Proof.
  apply (readSeries_totals_sum (abcSeries [10; 50; 90])
           {| valueColumns :=
                [{| source := {| roles := [Values] |};
                    col_values := [Val (10 : number); Val (50 : number);
                                   Val (90 : number)] |}];
              grouped := [{| name := EmptyString |}] |}
           {| source := {| roles := [Values] |};
              col_values := [Val (10 : number); Val (50 : number); Val (90 : number)] |}
           []); try reflexivity.
  constructor.
Defined.

Lemma readSeries_path_last_wins_witness :
  exists p,
    s_paths (readSeries (abcSeries [10; 0; 90])) = Some p /\
    length p = 3%nat /\ get p 0 = Val EmptyString /\ get p 1 = Undefined.
Proof.
  destruct (readSeries_path_last_wins (abcSeries [10; 0; 90])
           {| valueColumns :=
                [{| source := {| roles := [Values] |};
                    col_values := [Val (10 : number); Val (0 : number);
                                   Val (90 : number)] |}];
              grouped := [{| name := EmptyString |}] |}
           {| source := {| roles := [Values] |};
              col_values := [Val (10 : number); Val (0 : number); Val (90 : number)] |}
           [] eq_refl eq_refl eq_refl ltac:(constructor))
    as (p & Ep & Hlen & Hget).
  exists p. split; [exact Ep|]. split; [exact Hlen|]. split.
  - apply (proj1 (Hget 0%nat) [] _ [] eq_refl); [reflexivity | constructor].
  - apply (proj2 (Hget 1%nat)). repeat constructor.
Defined.



Lemma sanitizePathD_keeps_path_data_witness :
  sanitizePathD "M0 0 L4.5,4e-1 z" = Val "M0 0 L4.5,4e-1 z"%string.
Proof.
  apply sanitizePathD_keeps_path_data.
  repeat (constructor; [vm_compute; tauto|]). constructor.
Defined.

Lemma initWaffles_paths_witness :
  initWaffles (Some 3%nat) (Some [Val "M0 0"%string; Null]) !! 1%nat = Some Null.
Proof.
  apply (proj2 (initWaffles_paths (Some 3%nat) (Some [Val "M0 0"%string; Null]))
               1%nat).
  cbn. lia.
Defined.



Lemma updateOptions_defaults_witness :
  exists o,
    updateOptions {| width := Fin 1000; height := Fin 500 |}
                  (converter id (abcSeries [10; 0; 90])) !! 1%nat = Some o /\
    opt_value o <> NaN /\ opt_text o <> EmptyString /\ opt_identity o <> Undefined.
Proof.
  eexists. split; [vm_compute; reflexivity|].
  destruct (updateOptions_defaults {| width := Fin 1000; height := Fin 500 |}
              (converter id (abcSeries [10; 0; 90])) 1 _ eq_refl)
    as (H1 & H2 & H3 & _).
  repeat split; assumption.
Defined.

Lemma converter_without_values_witness :
  let dataView : @DataView nat unit :=
    {| categories := categories (abcSeries []);
       values := None;
       metadata_columns := true |} in
  vm_values (converter id dataView) = replicate 3 (Val (of_Z 0)) /\
  paths (converter id dataView) = None /\
  exists labels, labelsArray (converter id dataView) = Some labels /\
                 length labels = 3%nat.
Proof.
  apply (converter_without_values id
           {| categories := categories (abcSeries []);
              values := None;
              metadata_columns := true |} 3); reflexivity.
Defined.
